(* Verification of the erl (External Rate Limiter) Go package:
   window bucketing (window.go), glob matching (matcher.go), the counter
   stores (store/: MemoryStore, SQLiteStore, TieredStore; redis/RedisStore)
   and the admission check Limiter.Check.

   Modelling conventions.
   - A Go int64 is a Z; arithmetic that can wrap is written with [wrap64].
   - A time.Time is an absolute instant: nanoseconds since the Unix epoch,
     unbounded Z (all values the code uses are UTC after t.UTC()).
     A time.Duration is an int64 count of nanoseconds.
   - A Go map[string]T is a stdpp gmap string T.
   - Store operations are state-passing functions; a Go (int64, error)
     result is a pair (Z * option error). *)

From Stdlib Require Import ZArith Lia Ascii String List Bool.
From stdpp Require Import base gmap strings.
From Stdlib Require Floats.SpecFloat.

Open Scope Z_scope.

(* ===================================================================== *)
(** * Machine integers *)

Definition max_int64 : Z := 2 ^ 63 - 1.
Definition min_int64 : Z := - 2 ^ 63.

(** Two's-complement wrap-around of a Go int64 result. *)
Definition wrap64 (z : Z) : Z := Z.modulo (z + 2 ^ 63) (2 ^ 64) - 2 ^ 63.

(* ===================================================================== *)
(** * float64 (IEEE 754 binary64, rounding to nearest even, as Stdlib's
    SpecFloat specifies it) *)

Module Float64.

Definition t := SpecFloat.spec_float.

(** float64(z) for an int64 z. *)
Definition of_int64 (z : Z) : t := SpecFloat.binary_normalize 53 1024 z 0 false.

Definition add (x y : t) : t := SpecFloat.SFadd 53 1024 x y.
Definition div (x y : t) : t := SpecFloat.SFdiv 53 1024 x y.

(** int64(f): the fraction is discarded (truncation toward zero).  Only
    finite values in the int64 range reach it here; Go leaves the others
    implementation-defined. *)
Definition to_int64 (f : t) : Z :=
  match f with
  | SpecFloat.S754_finite s m e =>
      let a := if 0 <=? e then Z.pos m * 2 ^ e else Z.pos m / 2 ^ (- e) in
      if s then - a else a
  | _ => 0
  end.

End Float64.

(* ===================================================================== *)
(** * The Go time package (the part the code uses) *)

Module GoTime.

Definition Time := Z.           (* nanoseconds since 1970-01-01T00:00:00Z *)
Definition Duration := Z.       (* nanoseconds *)

Definition Nanosecond : Duration := 1.
Definition Second : Duration := 1000000000.
Definition Minute : Duration := 60 * Second.
Definition Hour : Duration := 60 * Minute.
Definition Day_ns : Duration := 24 * Hour.

(** Duration.Seconds: sec := d / Second; nsec := d % Second;
    float64(sec) + float64(nsec)/1e9, with Go's truncating / and %. *)
Definition Seconds (d : Duration) : Float64.t :=
  Float64.add (Float64.of_int64 (Z.quot d Second))
              (Float64.div (Float64.of_int64 (Z.rem d Second)) (Float64.of_int64 1000000000)).

(** t.Add(d) *)
Definition Add (t : Time) (d : Duration) : Time := t + d.

(** Days since 1970-01-01 of a proleptic Gregorian civil date. *)
Definition days_from_civil (y m d : Z) : Z :=
  let y' := if m <=? 2 then y - 1 else y in
  let era := y' / 400 in
  let yoe := y' - era * 400 in
  let mp := if m >? 2 then m - 3 else m + 9 in
  let doy := (153 * mp + 2) / 5 + d - 1 in
  let doe := yoe * 365 + yoe / 4 - yoe / 100 + doy in
  era * 146097 + doe - 719468.

(** Civil date (year, month, day) of a day count since 1970-01-01. *)
Definition civil_from_days (z : Z) : Z * Z * Z :=
  let z' := z + 719468 in
  let era := z' / 146097 in
  let doe := z' - era * 146097 in
  let yoe := (doe - doe / 1460 + doe / 36524 - doe / 146096) / 365 in
  let y := yoe + era * 400 in
  let doy := doe - (365 * yoe + yoe / 4 - yoe / 100) in
  let mp := (5 * doy + 2) / 153 in
  let d := doy - (153 * mp + 2) / 5 + 1 in
  let m := if mp <? 10 then mp + 3 else mp - 9 in
  (if m <=? 2 then y + 1 else y, m, d).

Definition days_of (t : Time) : Z := t / Day_ns.
Definition ns_of_day (t : Time) : Z := t mod Day_ns.

(** t.Year(), t.Month(), t.Day(), t.Hour(), t.Minute(), t.Second() in UTC. *)
Definition Year (t : Time) : Z := fst (fst (civil_from_days (days_of t))).
Definition Month (t : Time) : Z := snd (fst (civil_from_days (days_of t))).
Definition DayOf (t : Time) : Z := snd (civil_from_days (days_of t)).
Definition HourOf (t : Time) : Z := ns_of_day t / Hour.
Definition MinuteOf (t : Time) : Z := (ns_of_day t / Minute) mod 60.
Definition SecondOf (t : Time) : Z := (ns_of_day t / Second) mod 60.
Definition NanosecondOf (t : Time) : Z := ns_of_day t mod Second.

(** time.Date(year, month, day, hour, min, sec, nsec, time.UTC): the month
    is normalised into 1..12 with a carry into the year; the other fields
    may overflow and are added as durations, as Go's normalisation does. *)
Definition Date (year month day hour min sec nsec : Z) : Time :=
  let m0 := month - 1 in
  let y := year + m0 / 12 in
  let m := m0 mod 12 + 1 in
  (days_from_civil y m 1 + day - 1) * Day_ns
  + hour * Hour + min * Minute + sec * Second + nsec.

(** Decimal digits of a non-negative integer. *)
Definition digit (u : Z) : ascii := ascii_of_nat (48 + Z.to_nat u).

Fixpoint digits_aux (fuel : nat) (u : Z) (acc : string) : string :=
  match fuel with
  | O => String (digit u) acc
  | S fuel' =>
      if u <? 10 then String (digit u) acc
      else digits_aux fuel' (u / 10) (String (digit (u mod 10)) acc)
  end.

Definition digits (u : Z) : string :=
  digits_aux (Z.to_nat (Z.log2 u) + 1) u EmptyString.

Fixpoint zeros (n : nat) : string :=
  match n with O => EmptyString | S n' => String "0" (zeros n') end.

(** appendInt(nil, x, width) of the time formatter: a sign, then the
    digits zero-padded on the left to [width]. *)
Definition appendInt (x : Z) (width : nat) : string :=
  let ds := digits (Z.abs x) in
  let pad := zeros (width - String.length ds) in
  let sign := if Z.ltb x 0 then "-"%string else EmptyString in
  (sign ++ pad ++ ds)%string.

(** t.Format for the layouts used by Window.BucketKey. *)
Definition Format_2006_01 (t : Time) : string :=
  (appendInt (Year t) 4 ++ "-" ++ appendInt (Month t) 2)%string.
Definition Format_2006_01_02 (t : Time) : string :=
  (Format_2006_01 t ++ "-" ++ appendInt (DayOf t) 2)%string.
Definition Format_2006_01_02T15 (t : Time) : string :=
  (Format_2006_01_02 t ++ "T" ++ appendInt (HourOf t) 2)%string.
Definition Format_2006_01_02T15_04 (t : Time) : string :=
  (Format_2006_01_02T15 t ++ ":" ++ appendInt (MinuteOf t) 2)%string.

End GoTime.

Import GoTime.

(* ===================================================================== *)
(** * window.go: [Window] is a Go int; its methods *)

Definition Window := Z.
Definition PerMinute : Window := 0.
Definition PerHour : Window := 1.
Definition PerDay : Window := 2.
Definition PerMonth : Window := 3.

Definition Window_Duration (w : Window) : Duration :=
  if w =? PerMinute then Minute
  else if w =? PerHour then Hour
  else if w =? PerDay then 24 * Hour
  else if w =? PerMonth then 30 * 24 * Hour
  else Hour.

Definition Window_BucketKey (w : Window) (t : Time) : string :=
  if w =? PerMinute then Format_2006_01_02T15_04 t
  else if w =? PerHour then Format_2006_01_02T15 t
  else if w =? PerDay then Format_2006_01_02 t
  else if w =? PerMonth then Format_2006_01 t
  else Format_2006_01_02T15 t.

Definition Window_BucketStart (w : Window) (t : Time) : Time :=
  if w =? PerMinute then Date (Year t) (Month t) (DayOf t) (HourOf t) (MinuteOf t) 0 0
  else if w =? PerHour then Date (Year t) (Month t) (DayOf t) (HourOf t) 0 0 0
  else if w =? PerDay then Date (Year t) (Month t) (DayOf t) 0 0 0 0
  else if w =? PerMonth then Date (Year t) (Month t) 1 0 0 0 0
  else Date (Year t) (Month t) (DayOf t) (HourOf t) 0 0 0.


(* ===================================================================== *)
(** * Calendar checks over one 400-year era (used by the calendar lemmas) *)

Module CalendarCheck.

Definition era_days : Z := 146097.

(** Every day of one 400-year era, checked by evaluation. *)
Definition day_ok (z : Z) : bool :=
  let '(y, m, d) := civil_from_days z in
  (1 <=? m) && (m <=? 12) && (1 <=? d) && (days_from_civil y m d =? z).

Fixpoint days_ok (n : nat) (z : Z) : bool :=
  match n with O => true | S n' => day_ok z && days_ok n' (z + 1) end.

(** Every first-of-month of one era, checked by evaluation. *)
Definition month_ok (y m : Z) : bool :=
  match civil_from_days (days_from_civil y m 1) with
  | (y', m', d') => (y' =? y) && (m' =? m) && (d' =? 1)
  end.

Definition months_ok : bool :=
  forallb (fun y => forallb (fun m => month_ok (Z.of_nat y) (Z.of_nat m)) (seq 1 12))
    (seq 0 400).

End CalendarCheck.

(* ===================================================================== *)
(** * matcher.go *)

(** The strings package, on byte strings. *)
Module strings.

(** s[i:] *)
Fixpoint drop (i : nat) (s : string) : string :=
  match i, s with
  | O, _ => s
  | S _, EmptyString => EmptyString
  | S i', String _ s' => drop i' s'
  end.

Definition HasPrefix (s prefix : string) : bool := String.prefix prefix s.

Definition HasSuffix (s suffix : string) : bool :=
  (String.length suffix <=? String.length s)%nat &&
  String.eqb (String.substring (String.length s - String.length suffix)
                (String.length suffix) s) suffix.

Definition TrimSuffix (s suffix : string) : string :=
  if HasSuffix s suffix
  then String.substring 0 (String.length s - String.length suffix) s
  else s.

(** strings.TrimRight(s, "/") *)
Fixpoint TrimRightSlash (s : string) : string :=
  match s with
  | EmptyString => EmptyString
  | String c r =>
      let r' := TrimRightSlash r in
      if String.eqb r' EmptyString && Ascii.eqb c "/" then EmptyString
      else String c r'
  end.

End strings.

(** The body of wildcardMatch after its `pattern == "*"` fast path: the
    `for len(pattern) > 0` loop.  On a star the loop tries
    wildcardMatch(pattern[1:], str[i:]) for i = 0 .. len(str); that call is
    written out as its fast path followed by this loop. *)
Fixpoint wildcardMatch_loop (pattern str : string) : bool :=
  match pattern with
  | EmptyString => String.eqb str EmptyString
  | String c rest =>
      if Ascii.eqb c "*" then
        match rest with
        | EmptyString => true
        | String _ _ =>
            existsb
              (fun i => if String.eqb rest "*" then true
                        else wildcardMatch_loop rest (strings.drop i str))
              (seq 0 (String.length str + 1))
        end
      else
        match str with
        | EmptyString => false
        | String d str' => if Ascii.eqb c d then wildcardMatch_loop rest str' else false
        end
  end.

Definition wildcardMatch (pattern str : string) : bool :=
  if String.eqb pattern "*" then true else wildcardMatch_loop pattern str.

Definition globMatch (pattern value : string) : bool :=
  if String.eqb pattern value then true
  else if (strings.HasSuffix pattern "/*" &&
           (let prefix := strings.TrimSuffix pattern "/*" in
            String.eqb value prefix || strings.HasPrefix value (prefix ++ "/")))%bool
  then true
  else wildcardMatch pattern value.

Section MatchURL.

(** url.Parse(rawURL), reduced to what matchURL reads: None on a parse
    error, otherwise (parsed.Host, parsed.Path). *)
Variable url_Parse : string -> option (string * string).

Definition matchURL (rawURL pattern : string) : bool :=
  match url_Parse rawURL with
  | None => false
  | Some (host, path) =>
      let hostPath := strings.TrimRightSlash (host ++ path) in
      let pattern' := strings.TrimRightSlash pattern in
      globMatch pattern' hostPath
  end.

End MatchURL.

(* ===================================================================== *)
(** * resource.go, strategy.go *)

Definition Strategy := Z.
Definition Block : Strategy := 0.
Definition BlockWithQueue : Strategy := 1.
Definition LogOnly : Strategy := 2.

(** The Go fields Window and Strategy are prefixed to keep them apart from
    the types of the same name. *)
Record Resource := {
  Name : string;
  Pattern : string;
  Limit : Z;
  Resource_Window : Window;
  Resource_Strategy : Strategy
}.

(* ===================================================================== *)
(** * Go errors *)

(** The error values the package produces. *)
Inductive error :=
| ErrLimitExceeded                        (* errors.New("erl: rate limit exceeded") *)
| LimitExceededError (Resource : Resource) (Current : Z) (resetAt : Time)
                                          (* *LimitExceededError *)
| Errorf (format : string) (wrapped : error)
                                          (* fmt.Errorf(format, ..., wrapped) with %w *)
| BackendError (msg : string).            (* an error from a driver or server *)

(** The Unwrap method of LimitExceededError and the Unwrap of fmt.Errorf's %w error. *)
Definition Unwrap (e : error) : option error :=
  match e with
  | LimitExceededError _ _ _ => Some ErrLimitExceeded
  | Errorf _ w => Some w
  | _ => None
  end.

(** `err == target` on error interface values: the sentinel and driver
    errors compare by identity, which we take to be their message; a
    freshly allocated *LimitExceededError or *wrapError is equal to no
    other value. *)
Definition same_error (err target : error) : bool :=
  match err, target with
  | ErrLimitExceeded, ErrLimitExceeded => true
  | BackendError a, BackendError b => String.eqb a b
  | _, _ => false
  end.

(** errors.Is: walk the Unwrap chain. The sentinel's own chain has no
    Unwrap, so the step from a *LimitExceededError ends at the sentinel. *)
Fixpoint errors_Is (err target : error) : bool :=
  same_error err target ||
  match err with
  | LimitExceededError _ _ _ => same_error ErrLimitExceeded target
  | Errorf _ w => errors_Is w target
  | _ => false
  end.

(* ===================================================================== *)
(** * package store *)

Module store.

(** store.Window *)
Record Window := {
  Duration : GoTime.Duration;
  BucketKey : string;
  BucketStart : Time
}.

(** The Store interface; contexts are not modelled. A store is a state
    value and every method returns the state after the call. *)
Class Store (S : Type) := {
  Increment : string -> Window -> S -> (Z * option error) * S;
  Get : string -> Window -> S -> (Z * option error) * S;
  Reset : string -> S -> option error * S
}.

(** int64(w.Duration.Seconds()): the duration in seconds as a float64,
    truncated toward zero. *)
Definition window_seconds (w : Window) : Z := Float64.to_int64 (GoTime.Seconds (Duration w)).

(* --------------------------------------------------------------------- *)
(** ** MemoryStore (the mutex guards every method body as a whole) *)

Record bucket := { count : Z; bucketKey : string }.

Abbreviation MemoryStore := (gmap string bucket).

Definition NewMemoryStore : MemoryStore := ∅.

Definition MemoryStore_Increment (key : string) (w : Window) (m : MemoryStore)
  : (Z * option error) * MemoryStore :=
  let b := match m !! key with
           | Some b => if String.eqb (bucketKey b) (BucketKey w) then b
                       else {| count := 0; bucketKey := BucketKey w |}
           | None => {| count := 0; bucketKey := BucketKey w |}
           end in
  let b' := {| count := wrap64 (count b + 1); bucketKey := bucketKey b |} in
  ((count b', None), <[key := b']> m).

Definition MemoryStore_Get (key : string) (w : Window) (m : MemoryStore)
  : (Z * option error) * MemoryStore :=
  match m !! key with
  | Some b => if String.eqb (bucketKey b) (BucketKey w) then ((count b, None), m)
              else ((0, None), m)
  | None => ((0, None), m)
  end.

Definition MemoryStore_Reset (key : string) (m : MemoryStore) : option error * MemoryStore :=
  (None, delete key m).

#[global] Instance MemoryStore_Store : Store MemoryStore := {
  Increment := MemoryStore_Increment;
  Get := MemoryStore_Get;
  Reset := MemoryStore_Reset
}.

(* --------------------------------------------------------------------- *)
(** ** SQLiteStore *)

(** A row of the erl_counters table; the table is keyed by its primary key. *)
Record row := { row_count : Z; row_bucket_key : string; row_window_seconds : Z }.

Abbreviation SQLiteStore := (gmap string row).

(** The database/sql driver.  Each call the code makes into it (BeginTx,
    QueryRowContext(...).Scan, ExecContext, Commit) either does its work
    or fails with an error that the engine and the environment decide,
    not this code: SQLITE_BUSY while another connection holds the
    database, an I/O error, a cancelled context.  A [driver] lists the
    answers to the next calls in order (None: the call does its work;
    Some msg: it fails with that error); past the end of the list every
    call does its work. *)
Definition driver := list (option string).

Definition driver_call (d : driver) : option error * driver :=
  match d with
  | [] => (None, [])
  | o :: d' => (option_map BackendError o, d')
  end.

(** An open *SQLiteStore: the table and the driver that answers its calls. *)
Record SQLiteConn := { conn_table : SQLiteStore; conn_driver : driver }.

(** SQLiteStore.Increment.  The table changes only when Commit succeeds;
    after a failed statement or a failed Commit the deferred Rollback
    leaves the table as it was. *)
Definition SQLiteStore_Increment (key : string) (w : Window) (c : SQLiteConn)
  : (Z * option error) * SQLiteConn :=
  let db := conn_table c in
  let keep d := {| conn_table := db; conn_driver := d |} in
  (* tx, err := s.db.BeginTx(ctx, nil) *)
  let '(err, d) := driver_call (conn_driver c) in
  match err with
  | Some e => ((0, Some e), keep d)
  | None =>
  (* tx.QueryRowContext(ctx, `SELECT count, bucket_key ...`, key).Scan(&count, &bucketKey) *)
  let '(err, d) := driver_call d in
  match err with
  | Some e => ((0, Some e), keep d)
  | None =>
  match db !! key with
  | None =>
      (* err == sql.ErrNoRows: INSERT ... VALUES (?, 1, ?, ?) *)
      let '(err, d) := driver_call d in
      match err with
      | Some e => ((0, Some e), keep d)
      | None =>
          (* return 1, tx.Commit() *)
          let '(err, d) := driver_call d in
          match err with
          | Some e => ((1, Some e), keep d)
          | None =>
              ((1, None),
               {| conn_table := <[key := {| row_count := 1; row_bucket_key := BucketKey w;
                                             row_window_seconds := window_seconds w |}]> db;
                  conn_driver := d |})
          end
      end
  | Some r =>
      let count := if negb (String.eqb (row_bucket_key r) (BucketKey w)) then 0
                   else row_count r in
      let count := wrap64 (count + 1) in
      (* UPDATE erl_counters SET count = ?, bucket_key = ?, window_seconds = ? WHERE key = ? *)
      let '(err, d) := driver_call d in
      match err with
      | Some e => ((0, Some e), keep d)
      | None =>
          (* return count, tx.Commit() *)
          let '(err, d) := driver_call d in
          match err with
          | Some e => ((count, Some e), keep d)
          | None =>
              ((count, None),
               {| conn_table := <[key := {| row_count := count; row_bucket_key := BucketKey w;
                                             row_window_seconds := window_seconds w |}]> db;
                  conn_driver := d |})
          end
      end
  end
  end
  end.

Definition SQLiteStore_Get (key : string) (w : Window) (c : SQLiteConn)
  : (Z * option error) * SQLiteConn :=
  let db := conn_table c in
  (* s.db.QueryRowContext(ctx, `SELECT count, bucket_key ...`, key).Scan(&count, &bucketKey) *)
  let '(err, d) := driver_call (conn_driver c) in
  let c' := {| conn_table := db; conn_driver := d |} in
  match err with
  | Some e => ((0, Some e), c')
  | None =>
      match db !! key with
      | None => ((0, None), c')                               (* sql.ErrNoRows *)
      | Some r => if negb (String.eqb (row_bucket_key r) (BucketKey w)) then ((0, None), c')
                  else ((row_count r, None), c')
      end
  end.

Definition SQLiteStore_Reset (key : string) (c : SQLiteConn) : option error * SQLiteConn :=
  (* s.db.ExecContext(ctx, `DELETE FROM erl_counters WHERE key = ?`, key) *)
  let '(err, d) := driver_call (conn_driver c) in
  match err with
  | Some e => (Some e, {| conn_table := conn_table c; conn_driver := d |})
  | None => (None, {| conn_table := delete key (conn_table c); conn_driver := d |})
  end.

#[global] Instance SQLiteConn_Store : Store SQLiteConn := {
  Increment := SQLiteStore_Increment;
  Get := SQLiteStore_Get;
  Reset := SQLiteStore_Reset
}.

(** The SQLite store over a driver that does every call (no other
    connection, no I/O failure): the table alone is the state. *)
Definition on_table {A : Type} (f : SQLiteConn -> A * SQLiteConn) (db : SQLiteStore)
  : A * SQLiteStore :=
  let '(a, c) := f {| conn_table := db; conn_driver := [] |} in (a, conn_table c).

#[global] Instance SQLiteStore_Store : Store SQLiteStore := {
  Increment key w := on_table (SQLiteStore_Increment key w);
  Get key w := on_table (SQLiteStore_Get key w);
  Reset key := on_table (SQLiteStore_Reset key)
}.

End store.

(* ===================================================================== *)
(** * package redis: RedisStore *)

Module redis.

Import store.

(** A Redis hash with fields "count" and "bucket_key" and the key's TTL in
    seconds (None: no expiry). Expiry as time passes is Redis's own clock
    and is not modelled; an expired key is simply absent.  The count field
    is written only by the script, with HSET "1" and HINCRBY, and HINCRBY
    refuses a result outside the signed 64-bit range: the field always
    holds the decimal form of an int64, [h_count], and [h_count_int64]
    records that range.  (A key written by another client under the erl:
    prefix is not modelled.) *)
Record hash := {
  h_count : Z;
  h_bucket_key : string;
  h_ttl : option Z;
  h_count_int64 : (min_int64 <=? h_count) && (h_count <=? max_int64) = true
}.

Abbreviation RedisStore := (gmap string hash).

Definition redisKey (key : string) : string := ("erl:" ++ key)%string.

(** HINCRBY key count 1: the hash with its count plus one, or None when the
    sum would leave the signed 64-bit range (Redis then answers "ERR
    increment or decrement would overflow" and changes nothing). *)
Definition hincrby (h : hash) : option hash :=
  match Z_le_gt_dec (h_count h + 1) max_int64 with
  | right _ => None
  | left Hle =>
      Some {| h_count := h_count h + 1; h_bucket_key := h_bucket_key h; h_ttl := h_ttl h;
              h_count_int64 := ltac:(
                pose proof (h_count_int64 h) as R;
                apply andb_prop in R; destruct R as [R1 R2];
                apply Z.leb_le in R1;
                apply andb_true_intro; split; apply Z.leb_le;
                unfold min_int64, max_int64 in *; lia) |}
  end.

(** incrementScript (the Lua script runs atomically in Redis).
    HGET of a missing field is false, which is ~= every bucket key.
    HINCRBY fails when the result would overflow a signed 64-bit integer. *)
Definition incrementScript (k bucket_key : string) (ttl : Z) (db : RedisStore)
  : (Z + string) * RedisStore :=
  let current_bucket := match db !! k with Some h => Some (h_bucket_key h) | None => None end in
  let differs := match current_bucket with
                 | Some b => negb (String.eqb b bucket_key)
                 | None => true
                 end in
  if differs then
    let old_ttl := match db !! k with Some h => h_ttl h | None => None end in
    let h := {| h_count := 1; h_bucket_key := bucket_key;
                h_ttl := if 0 <? ttl then Some ttl else old_ttl;
                h_count_int64 := eq_refl |} in
    (inl 1, <[k := h]> db)
  else
    match db !! k with
    | Some h =>
        match hincrby h with
        | None => (inr "ERR increment or decrement would overflow"%string, db)
        | Some h' => (inl (h_count h'), <[k := h']> db)
        end
    | None => (inl 1, db)   (* unreachable: a present bucket key means a present hash *)
    end.

(** A go-redis client call.  Its reply arrives (the command ran), or the
    call fails: before the server ran the command (no connection, a
    cancelled context), or after it (a read timeout, a dropped
    connection), when the command's effect stays and only its reply is
    lost.  Which one happens is the network's and the server's doing. *)
Inductive reply :=
| Delivered
| FailedBefore (msg : string)
| FailedAfter (msg : string).

(** The outcomes of the next client calls, in order; past the end of the
    list every reply arrives. *)
Definition client := list reply.

Definition client_call (cl : client) : reply * client :=
  match cl with
  | [] => (Delivered, [])
  | o :: cl' => (o, cl')
  end.

(** A *RedisStore: the server's keys and the client that reaches them. *)
Record RedisConn := { conn_db : RedisStore; conn_client : client }.

Definition RedisStore_Increment (key : string) (w : Window) (c : RedisConn)
  : (Z * option error) * RedisConn :=
  let ttl := window_seconds w in
  let fail msg := Some (Errorf "erl/store/redis: increment: %w" (BackendError msg)) in
  (* incrementScript.Run(ctx, r.client, []string{redisKey(key)}, w.BucketKey, ttl).Int64() *)
  let '(rep, cl) := client_call (conn_client c) in
  match rep with
  | FailedBefore msg => ((0, fail msg), {| conn_db := conn_db c; conn_client := cl |})
  | FailedAfter msg =>
      let '(_, db') := incrementScript (redisKey key) (BucketKey w) ttl (conn_db c) in
      ((0, fail msg), {| conn_db := db'; conn_client := cl |})
  | Delivered =>
      match incrementScript (redisKey key) (BucketKey w) ttl (conn_db c) with
      | (inl result, db') => ((result, None), {| conn_db := db'; conn_client := cl |})
      | (inr msg, db') => ((0, fail msg), {| conn_db := db'; conn_client := cl |})
      end
  end.

(** strconv.ParseInt(s, 10, 64) on the decimal form s of the integer z:
    z itself within the int64 range, else the nearest bound with a range
    error. *)
Definition ParseInt (z : Z) : Z * option error :=
  if (min_int64 <=? z) && (z <=? max_int64) then (z, None)
  else (if z >? max_int64 then max_int64 else min_int64,
        Some (BackendError ("strconv.ParseInt: parsing: value out of range")%string)).

(** HGETALL returns an empty map for a missing key.  The count field holds
    the decimal form of the int64 [h_count] (see [h_count_int64]), so the
    "parse count" branch is there as in the code but never taken. *)
Definition RedisStore_Get (key : string) (w : Window) (c : RedisConn)
  : (Z * option error) * RedisConn :=
  (* r.client.HGetAll(ctx, redisKey(key)).Result() *)
  let '(rep, cl) := client_call (conn_client c) in
  let c' := {| conn_db := conn_db c; conn_client := cl |} in
  match rep with
  | FailedBefore msg | FailedAfter msg =>
      ((0, Some (Errorf "erl/store/redis: get: %w" (BackendError msg))), c')
  | Delivered =>
      match conn_db c !! redisKey key with
      | None => ((0, None), c')
      | Some h =>
          if negb (String.eqb (h_bucket_key h) (BucketKey w)) then ((0, None), c')
          else
            (* strconv.ParseInt(vals["count"], 10, 64) *)
            match ParseInt (h_count h) with
            | (_, Some e) => ((0, Some (Errorf "erl/store/redis: parse count: %w" e)), c')
            | (count, None) => ((count, None), c')
            end
      end
  end.

Definition RedisStore_Reset (key : string) (c : RedisConn) : option error * RedisConn :=
  (* r.client.Del(ctx, redisKey(key)).Err() *)
  let '(rep, cl) := client_call (conn_client c) in
  match rep with
  | FailedBefore msg => (Some (BackendError msg), {| conn_db := conn_db c; conn_client := cl |})
  | FailedAfter msg =>
      (Some (BackendError msg), {| conn_db := delete (redisKey key) (conn_db c); conn_client := cl |})
  | Delivered => (None, {| conn_db := delete (redisKey key) (conn_db c); conn_client := cl |})
  end.

#[global] Instance RedisConn_Store : Store RedisConn := {
  Increment := RedisStore_Increment;
  Get := RedisStore_Get;
  Reset := RedisStore_Reset
}.

(** The Redis store over a client whose every reply arrives: the server's
    keys alone are the state. *)
Definition on_db {A : Type} (f : RedisConn -> A * RedisConn) (db : RedisStore)
  : A * RedisStore :=
  let '(a, c) := f {| conn_db := db; conn_client := [] |} in (a, conn_db c).

#[global] Instance RedisStore_Store : Store RedisStore := {
  Increment key w := on_db (RedisStore_Increment key w);
  Get key w := on_db (RedisStore_Get key w);
  Reset key := on_db (RedisStore_Reset key)
}.

End redis.

(* ===================================================================== *)
(** * store/tiered.go: TieredStore *)

Module tiered.

Import store.

Section Tiered.

Context {P : Type} `{Store P}.

(** The durable store is held by reference; its state is threaded here. *)
Record TieredStore := { memory : MemoryStore; persistent : P }.

Definition NewTieredStore (p : P) : TieredStore :=
  {| memory := NewMemoryStore; persistent := p |}.

Definition TieredStore_Increment (key : string) (w : Window) (t : TieredStore)
  : (Z * option error) * TieredStore :=
  let '((count, err), p') := Increment key w (persistent t) in
  match err with
  | Some e => ((0, Some e), {| memory := memory t; persistent := p' |})
  | None =>
      (* the memory result is ignored *)
      let '(_, m') := MemoryStore_Increment key w (memory t) in
      ((count, None), {| memory := m'; persistent := p' |})
  end.

Definition TieredStore_Get (key : string) (w : Window) (t : TieredStore)
  : (Z * option error) * TieredStore :=
  let '((count, err), m') := MemoryStore_Get key w (memory t) in
  match err with
  | Some e => ((0, Some e), {| memory := m'; persistent := persistent t |})
  | None =>
      if count >? 0 then ((count, None), {| memory := m'; persistent := persistent t |})
      else
        let '((count, err), p') := Get key w (persistent t) in
        match err with
        | Some e => ((0, Some e), {| memory := m'; persistent := p' |})
        | None =>
            (* backfill: t.memory.buckets[key] = &bucket{count, w.BucketKey} *)
            let m'' := if count >? 0
                       then <[key := {| count := count; bucketKey := BucketKey w |}]> m'
                       else m' in
            ((count, None), {| memory := m''; persistent := p' |})
        end
  end.

Definition TieredStore_Reset (key : string) (t : TieredStore) : option error * TieredStore :=
  let '(_, m') := MemoryStore_Reset key (memory t) in
  let '(err, p') := Reset key (persistent t) in
  (err, {| memory := m'; persistent := p' |}).

#[global] Instance TieredStore_Store : Store TieredStore := {
  Increment := TieredStore_Increment;
  Get := TieredStore_Get;
  Reset := TieredStore_Reset
}.

End Tiered.

Arguments TieredStore P : clear implicits.

End tiered.

(* ===================================================================== *)
(** * erl.go: Limiter.Check *)

(** The limit-reached callback is an observer; each invocation is recorded
    as an event in the order the calls happen. *)
Inductive event := LimitReached (r : Resource) (current : Z).

Record Limiter := {
  resources : list Resource;
  onLimitReached : bool            (* l.onLimitReached != nil *)
}.

(** Register appends to the resource list. *)
Definition Register (l : Limiter) (r : Resource) : Limiter :=
  {| resources := resources l ++ [r]; onLimitReached := onLimitReached l |}.

(** The store.Window built by Check for resource r at instant now. *)
Definition window_of (r : Resource) (now : Time) : store.Window :=
  {| store.Duration := Window_Duration (Resource_Window r);
     store.BucketKey := Window_BucketKey (Resource_Window r) now;
     store.BucketStart := Window_BucketStart (Resource_Window r) now |}.

Section Limiter.

Variable url_Parse : string -> option (string * string).
Context {S : Type} `{store.Store S}.

(** What Check does once the store returned [current] for resource r in
    window w: the `if current > r.Limit` block and its strategy switch. *)
Definition apply_strategy (l : Limiter) (r : Resource) (w : store.Window) (current : Z)
  : option error * list event :=
  if current >? Limit r then
    let ev := if onLimitReached l then [LimitReached r current] else [] in
    if Resource_Strategy r =? Block then
      (Some (LimitExceededError r current (Add (store.BucketStart w) (store.Duration w))), ev)
    else if Resource_Strategy r =? BlockWithQueue then
      (Some (LimitExceededError r current (Add (store.BucketStart w) (store.Duration w))), ev)
    else if Resource_Strategy r =? LogOnly then
      (None, ev)                                  (* allow the request through *)
    else (None, ev)                               (* no case taken: fall out of the switch *)
  else (None, []).                                (* under the limit; allow *)

(** The body of the loop for the first resource r whose pattern matches;
    [now] is the value of time.Now() taken by the call. *)
Definition check_matched (l : Limiter) (r : Resource) (now : Time) (st : S)
  : option error * S * list event :=
  let w := window_of r now in
  let '((current, err), st') := store.Increment (Name r) w st in
  match err with
  | Some e => (Some (Errorf "erl: store error: %w" e), st', [])
  | None => let '(res, ev) := apply_strategy l r w current in (res, st', ev)
  end.

(** The `for _, r := range l.resources` loop of Check. *)
Fixpoint check_loop (l : Limiter) (rs : list Resource) (rawURL : string)
    (now : Time) (st : S) : option error * S * list event :=
  match rs with
  | [] => (None, st, [])                                   (* no match; allow *)
  | r :: rs' =>
      if negb (matchURL url_Parse rawURL (Pattern r)) then check_loop l rs' rawURL now st
      else check_matched l r now st
  end.

Definition Check (l : Limiter) (rawURL : string) (now : Time) (st : S)
  : option error * S * list event :=
  check_loop l (resources l) rawURL now st.

(** Sequential Check calls on one URL at the instants [nows]: the result
    of each call, the final store and the events of each call. *)
Fixpoint Check_seq (l : Limiter) (rawURL : string) (nows : list Time) (st : S)
  : list (option error) * S * list (list event) :=
  match nows with
  | [] => ([], st, [])
  | now :: nows' =>
      let '(res, st1, evs) := Check l rawURL now st in
      let '(ress, st2, evss) := Check_seq l rawURL nows' st1 in
      (res :: ress, st2, evs :: evss)
  end.

(** The resource Check charges: the first registered one that matches. *)
Fixpoint first_match (rs : list Resource) (rawURL : string) : option Resource :=
  match rs with
  | [] => None
  | r :: rs' => if matchURL url_Parse rawURL (Pattern r) then Some r else first_match rs' rawURL
  end.

End Limiter.

(** url.Parse on "https://host/path?query" strings, for concrete runs:
    the host up to the first '/', then the path, the query dropped. *)
Module ExampleURL.

Fixpoint cut_query (s : string) : string :=
  match s with
  | EmptyString => EmptyString
  | String c r => if Ascii.eqb c "?" then EmptyString else String c (cut_query r)
  end.

Fixpoint split_host (s : string) : string * string :=
  match s with
  | EmptyString => (EmptyString, EmptyString)
  | String c r =>
      if Ascii.eqb c "/" then (EmptyString, s)
      else let '(h, p) := split_host r in (String c h, p)
  end.

Definition parse (raw : string) : option (string * string) :=
  if String.prefix "https://" raw
  then Some (split_host (cut_query (strings.drop 8 raw)))
  else None.

End ExampleURL.

(* ===================================================================== *)
(** * Counter views of the backends (specification helpers) *)

Module Views.

Import store.

(** The stored (count, bucket key) of a key, per backend. *)
Definition mem_stored (m : MemoryStore) (key : string) : option (Z * string) :=
  match m !! key with Some b => Some (count b, bucketKey b) | None => None end.

Definition sql_stored (db : SQLiteStore) (key : string) : option (Z * string) :=
  match db !! key with Some r => Some (row_count r, row_bucket_key r) | None => None end.

Definition redis_stored (db : redis.RedisStore) (key : string) : option (Z * string) :=
  match db !! redis.redisKey key with
  | Some h => Some (redis.h_count h, redis.h_bucket_key h)
  | None => None
  end.

(** The count an increment should return: 1 for a missing counter or one
    of another bucket, the stored count plus one otherwise. *)
Definition next_count (o : option (Z * string)) (w : Window) : Z :=
  match o with
  | None => 1
  | Some (c, bk) => if String.eqb bk (BucketKey w) then c + 1 else 1
  end.

(** The count a read should return: the stored count in the same bucket,
    0 otherwise. *)
Definition read_count (o : option (Z * string)) (w : Window) : Z :=
  match o with
  | None => 0
  | Some (c, bk) => if String.eqb bk (BucketKey w) then c else 0
  end.

(** A count stored for the bucket of w is an int64 below the maximum (so
    adding one does not overflow). *)
Definition below_max (o : option (Z * string)) (w : Window) : Prop :=
  match o with
  | None => True
  | Some (c, bk) => bk = BucketKey w -> min_int64 <= c < max_int64
  end.

(** Three increments, in windows a, a, b, from a given state. *)
Definition three_increments {S} `{Store S} (key : string) (a b : Window) (st : S)
  : Z * Z * Z :=
  let '((c1, _), st1) := Increment key a st in
  let '((c2, _), st2) := Increment key a st1 in
  let '((c3, _), _) := Increment key b st2 in
  (c1, c2, c3).

End Views.

(* ===================================================================== *)
(** * What a run of sequential checks should show (specification helper) *)

Module CheckViews.

(** Call i (from 0) of a run at instant now is the call that sees count
    n = i + 1: below or at the limit it is allowed with no callback; past
    the limit the callback fires (when set), Block and BlockWithQueue
    return a limit-exceeded error carrying the reset instant, LogOnly
    allows. *)
Definition sequence_outcome (l : Limiter) (r : Resource) (nows : list Time)
    (ress : list (option error)) (evss : list (list event)) : Prop :=
  length ress = length nows /\ length evss = length nows /\
  forall (i : nat) (now : Time), nth_error nows i = Some now ->
    let n := Z.of_nat i + 1 in
    (n <= Limit r -> nth_error ress i = Some None /\ nth_error evss i = Some [])
    /\ (n > Limit r ->
        nth_error evss i = Some (if onLimitReached l then [LimitReached r n] else [])
        /\ ((Resource_Strategy r = Block \/ Resource_Strategy r = BlockWithQueue) ->
            nth_error ress i =
            Some (Some (LimitExceededError r n
                          (Add (Window_BucketStart (Resource_Window r) now)
                               (Window_Duration (Resource_Window r))))))
        /\ (Resource_Strategy r = LogOnly -> nth_error ress i = Some None)).

End CheckViews.

(* ===================================================================== *)
(** * erl.go: the other Limiter methods; transport.go *)

Section LimiterMethods.

Variable url_Parse : string -> option (string * string).
Context {S : Type} `{store.Store S}.

(** The error GetUsage returns: the store's own error, unchanged, or the
    fmt.Errorf("erl: resource %q not found", name) error (no %w). *)
Inductive usage_error :=
| UsageStoreError (e : error)
| ResourceNotFound (name : string).

(** The `for _, r := range l.resources` loop of GetUsage: the first
    resource named [name] is read in its window at [now]. *)
Fixpoint getUsage_loop (rs : list Resource) (name : string) (now : Time) (st : S)
  : (Z * option usage_error) * S :=
  match rs with
  | [] => ((0, Some (ResourceNotFound name)), st)
  | r :: rs' =>
      if String.eqb (Name r) name then
        let '((c, err), st') := store.Get (Name r) (window_of r now) st in
        ((c, option_map UsageStoreError err), st')
      else getUsage_loop rs' name now st
  end.

Definition GetUsage (l : Limiter) (name : string) (now : Time) (st : S)
  : (Z * option usage_error) * S :=
  getUsage_loop (resources l) name now st.

(** ResetUsage resets the store key [name], registered or not. *)
Definition ResetUsage (l : Limiter) (name : string) (st : S) : option error * S :=
  store.Reset name st.

(** Resources returns a copy of the registered list. *)
Definition Resources (l : Limiter) : list Resource := resources l.

Record ResourceStatus := { RS_Resource : Resource; RS_Current : Z }.

(** The loop of Snapshot: one time.Now() for all resources; the first
    store error aborts with (nil, error); [out] is the non-nil slice built
    so far. *)
Fixpoint snapshot_loop (rs : list Resource) (now : Time) (out : list ResourceStatus) (st : S)
  : (option (list ResourceStatus) * option error) * S :=
  match rs with
  | [] => ((Some out, None), st)
  | r :: rs' =>
      let '((current, err), st') := store.Get (Name r) (window_of r now) st in
      match err with
      | Some e => ((None, Some (Errorf "erl: snapshot %s: %w" e)), st')
      | None => snapshot_loop rs' now (out ++ [{| RS_Resource := r; RS_Current := current |}]) st'
      end
  end.

Definition Snapshot (l : Limiter) (now : Time) (st : S)
  : (option (list ResourceStatus) * option error) * S :=
  snapshot_loop (resources l) now [] st.

(** transport.RoundTrip: Check the request URL (req.URL.String()), and
    forward to the base RoundTripper only when Check allows; [base] gives
    the base transport's (response, error) for a URL. *)
Definition RoundTrip {Resp : Type} (base : string -> option Resp * option error)
    (l : Limiter) (url : string) (now : Time) (st : S)
  : (option Resp * option error) * S * list event :=
  let '(err, st', evs) := Check url_Parse l url now st in
  match err with
  | Some e => ((None, Some e), st', evs)
  | None => (base url, st', evs)
  end.

End LimiterMethods.

(* ===================================================================== *)
(** * Patterns without a star (specification helper) *)

(** Whether a pattern contains a '*'. *)
Fixpoint has_star (s : string) : bool :=
  match s with
  | EmptyString => false
  | String c r => Ascii.eqb c "*" || has_star r
  end.

(* ===================================================================== *)
(** * The statuses Snapshot should return (specification helper) *)

Definition snapshot_statuses (stored : string -> option (Z * string)) (now : Time)
    (rs : list Resource) : list ResourceStatus :=
  map (fun r => {| RS_Resource := r;
                   RS_Current := Views.read_count (stored (Name r)) (window_of r now) |}) rs.

(* ===================================================================== *)
(** * Concurrent Checks *)

(** Goroutines calling Check on one Limiter at the same time share the
    store (and the callback); the resource list is only read.  Each
    store's Increment is one indivisible step: MemoryStore.Increment holds
    the store's mutex for its whole body; SQLiteStore.Increment is one
    transaction, and SQLite's transactions are serializable (one that
    commits behaves as if it ran alone, one that cannot go on, for
    instance with SQLITE_BUSY, fails and is rolled back, which the
    driver's answers model); Redis runs the increment script atomically.
    So a goroutine's Check is: matching (local), one Increment (shared),
    the strategy switch (local, calling the callback).  A configuration
    lists every goroutine's stage; a step advances one goroutine, the
    scheduler's choice, by one stage. *)
Module Concurrent.

Section Concurrent.

Variable url_Parse : string -> option (string * string).
Context {S : Type} `{store.Store S}.
Variable l : Limiter.
Variable rawURL : string.

Inductive goroutine :=
| GPending (now : Time)                               (* Check(ctx, rawURL) called at now *)
| GCounted (r : Resource) (now : Time) (current : Z)  (* its Increment returned current *)
| GDone (seen : option Z) (res : option error).       (* Check returned res; seen is the
                                                         count its Increment returned *)

Record config := {
  threads : list goroutine;
  shared : S;
  events : list event;  (* callback invocations, in the order they happen *)
  log : list Z          (* the counts of the Increments that returned no error, in the
                           order they took effect (bookkeeping only: the code keeps none) *)
}.

(** Matching and the Increment: the stage of Check up to the store's reply. *)
Definition store_stage (now : Time) (st : S) (lg : list Z) : goroutine * S * list Z :=
  match first_match url_Parse (resources l) rawURL with
  | None => (GDone None None, st, lg)
  | Some r =>
      let '((current, err), st') := store.Increment (Name r) (window_of r now) st in
      match err with
      | Some e => (GDone None (Some (Errorf "erl: store error: %w" e)), st', lg)
      | None => (GCounted r now current, st', lg ++ [current])
      end
  end.

Inductive step : config -> config -> Prop :=
| step_store ts1 ts2 now st evs lg :
    step {| threads := ts1 ++ GPending now :: ts2; shared := st; events := evs; log := lg |}
         (let '(g, st', lg') := store_stage now st lg in
          {| threads := ts1 ++ g :: ts2; shared := st'; events := evs; log := lg' |})
| step_finish ts1 ts2 r now current st evs lg :
    step {| threads := ts1 ++ GCounted r now current :: ts2; shared := st; events := evs;
            log := lg |}
         (let '(res, evs') := apply_strategy l r (window_of r now) current in
          {| threads := ts1 ++ GDone (Some current) res :: ts2; shared := st;
             events := evs ++ evs'; log := lg |}).

(** One goroutine per instant, all before the store. *)
Definition init (nows : list Time) (st : S) : config :=
  {| threads := map GPending nows; shared := st; events := []; log := [] |}.

Definition reachable (c0 c : config) : Prop := rtc step c0 c.

Definition is_done (g : goroutine) : bool :=
  match g with GDone _ _ => true | _ => false end.

Definition terminal (cfg : config) : Prop := forallb is_done (threads cfg) = true.

Definition is_allowed (g : goroutine) : bool :=
  match g with GDone _ None => true | _ => false end.

Definition is_denied (g : goroutine) : bool :=
  match g with GDone (Some _) (Some _) => true | _ => false end.

Definition is_failed (g : goroutine) : bool :=
  match g with GDone None (Some _) => true | _ => false end.

Definition allowed (cfg : config) : nat := length (List.filter is_allowed (threads cfg)).
Definition denied (cfg : config) : nat := length (List.filter is_denied (threads cfg)).
Definition failed (cfg : config) : nat := length (List.filter is_failed (threads cfg)).

(** The counts the goroutines' Increments returned without error. *)
Definition seen_of (g : goroutine) : list Z :=
  match g with
  | GCounted _ _ c => [c]
  | GDone (Some c) _ => [c]
  | _ => []
  end.

Definition seen_counts (cfg : config) : list Z := flat_map seen_of (threads cfg).

End Concurrent.

Arguments config S : clear implicits.

(** 1, 2, ..., n. *)
Definition iota (n : nat) : list Z := map (fun i => Z.of_nat i + 1) (seq 0 n).

End Concurrent.

(* ##################################################################### *)
(** * Proofs *)
(* ##################################################################### *)

(* ===================================================================== *)
(** * Calendar lemmas: the civil conversions repeat every 400 years *)

Module Calendar.

Import CalendarCheck.

Lemma div_shift (a k c : Z) : 0 < c -> (a + c * k) / c = a / c + k.
Proof. intros Hc. rewrite (Z.mul_comm c k). apply Z.div_add. lia. Qed.

Lemma rem_shift (a k c : Z) :
  0 < c -> a + c * k - (a + c * k) / c * c = a - a / c * c.
Proof. intros Hc. rewrite div_shift by exact Hc. ring. Qed.

Lemma days_from_civil_shift (y m d k : Z) :
  days_from_civil (y + 400 * k) m d = days_from_civil y m d + era_days * k.
Proof.
  unfold days_from_civil, era_days.
  destruct (m <=? 2); cbn zeta;
    [ replace (y + 400 * k - 1) with ((y - 1) + 400 * k) by lia | ];
    rewrite !rem_shift, !div_shift by lia; ring.
Qed.

Lemma civil_from_days_shift (z k : Z) :
  civil_from_days (z + era_days * k) =
  let '(y, m, d) := civil_from_days z in (y + 400 * k, m, d).
Proof.
  unfold civil_from_days, era_days. cbn zeta.
  replace (z + 146097 * k + 719468) with ((z + 719468) + 146097 * k) by lia.
  rewrite !rem_shift, !div_shift by lia.
  destruct (_ <? 10); destruct (_ <=? 2); f_equal; f_equal; ring.
Qed.

Lemma days_ok_spec (n : nat) (z i : Z) :
  days_ok n z = true -> 0 <= i < Z.of_nat n -> day_ok (z + i) = true.
Proof.
  revert z i; induction n as [|n IH]; intros z i H Hi; [lia|].
  cbn [days_ok] in H; apply andb_prop in H as [H0 H1].
  destruct (Z.eq_dec i 0) as [->|Hne]; [now rewrite Z.add_0_r|].
  replace (z + i) with ((z + 1) + (i - 1)) by lia.
  apply IH; [exact H1|lia].
Qed.

Lemma one_era_ok : days_ok (Z.to_nat era_days) (- 719468) = true.
Proof. vm_compute. reflexivity. Qed.

Lemma day_ok_all (z : Z) : day_ok z = true.
Proof.
  set (k := (z + 719468) / era_days).
  set (z0 := z - era_days * k).
  assert (Hz0 : day_ok z0 = true).
  { replace z0 with (- 719468 + (z + 719468 - era_days * k)) by (unfold z0; lia).
    apply (days_ok_spec (Z.to_nat era_days)); [exact one_era_ok|].
    unfold k, era_days; rewrite Z2Nat.id by lia.
    pose proof (Z.mod_pos_bound (z + 719468) 146097 ltac:(lia)).
    rewrite Z.mod_eq in H by lia. lia. }
  replace z with (z0 + era_days * k) by (unfold z0; lia).
  unfold day_ok in *. rewrite civil_from_days_shift.
  destruct (civil_from_days z0) as [[y m] d].
  rewrite days_from_civil_shift.
  repeat (apply andb_prop in Hz0 as [Hz0 ?]).
  apply Z.eqb_eq in H. rewrite H.
  rewrite Hz0, H1, H0, Z.eqb_refl. reflexivity.
Qed.

Lemma months_ok_true : months_ok = true.
Proof. vm_compute. reflexivity. Qed.

Lemma first_of_month (y m : Z) :
  1 <= m <= 12 -> civil_from_days (days_from_civil y m 1) = (y, m, 1).
Proof.
  intros Hm.
  set (k := y / 400). set (y0 := y mod 400).
  assert (Hy : y = y0 + 400 * k) by (unfold y0, k; pose proof (Z.div_mod y 400); lia).
  assert (H0 : month_ok y0 m = true).
  { pose proof months_ok_true as H. unfold months_ok in H.
    rewrite forallb_forall in H.
    specialize (H (Z.to_nat y0)).
    rewrite Z2Nat.id in H by (unfold y0; pose proof (Z.mod_pos_bound y 400); lia).
    assert (Hin : List.In (Z.to_nat y0) (seq 0 400)).
    { apply in_seq. unfold y0; pose proof (Z.mod_pos_bound y 400); lia. }
    specialize (H Hin). rewrite forallb_forall in H.
    specialize (H (Z.to_nat m)). rewrite Z2Nat.id in H by lia.
    apply H. apply in_seq. lia. }
  clearbody k y0.
  rewrite Hy, days_from_civil_shift, civil_from_days_shift.
  unfold month_ok in H0.
  destruct (civil_from_days (days_from_civil y0 m 1)) as [[y' m'] d'].
  repeat (apply andb_prop in H0 as [H0 ?]).
  apply Z.eqb_eq in H0, H, H1. subst. reflexivity.
Qed.

Lemma days_from_civil_day (y m d : Z) :
  days_from_civil y m d = days_from_civil y m 1 + (d - 1).
Proof. unfold days_from_civil. cbn zeta. ring. Qed.

End Calendar.

Lemma civil_of_time (t : Time) :
  1 <= Month t <= 12 /\ 1 <= DayOf t /\
  days_from_civil (Year t) (Month t) (DayOf t) = days_of t.
Proof.
  pose proof (Calendar.day_ok_all (days_of t)) as H.
  unfold Year, Month, DayOf, CalendarCheck.day_ok in *.
  destruct (civil_from_days (days_of t)) as [[y m] d]; cbn.
  repeat (apply andb_prop in H as [H ?]).
  apply Z.leb_le in H, H1, H2. apply Z.eqb_eq in H0. lia.
Qed.

Lemma BucketStart_PerMonth_eq (t : Time) :
  Window_BucketStart PerMonth t = days_from_civil (Year t) (Month t) 1 * Day_ns.
Proof.
  destruct (civil_of_time t) as [Hm _].
  unfold Window_BucketStart, PerMonth, PerMinute, PerHour, PerDay; cbn -[days_from_civil Year Month].
  unfold Date.
  rewrite (Z.div_small (Month t - 1) 12) by lia.
  rewrite (Z.mod_small (Month t - 1) 12) by lia.
  replace (Year t + 0) with (Year t) by ring.
  replace (Month t - 1 + 1) with (Month t) by ring.
  unfold Time. ring.
Qed.

(** ** C8: the PerMonth window. *)
(** Claim C8: for every timestamp t, the PerMonth window has a duration of
    exactly 30 x 24 hours, its bucket key is the UTC year-month of t
    (layout "2006-01"), and its bucket start is the first day of t's UTC
    month at 00:00 UTC (same year and month as t, day 1, no time of day,
    not after t).  Bucket start plus duration need not be the start of the
    next calendar month: for 2024-01-15 it lands on 2024-01-31. *)
Theorem PerMonth_window_spec (t : Time) :
  Window_Duration PerMonth = 30 * 24 * Hour
  /\ Window_BucketKey PerMonth t =
       (appendInt (Year t) 4 ++ "-" ++ appendInt (Month t) 2)%string
  /\ Year (Window_BucketStart PerMonth t) = Year t
  /\ Month (Window_BucketStart PerMonth t) = Month t
  /\ DayOf (Window_BucketStart PerMonth t) = 1
  /\ ns_of_day (Window_BucketStart PerMonth t) = 0
  /\ Window_BucketStart PerMonth t <= t
  /\ (exists t' : Time,
        Add (Window_BucketStart PerMonth t') (Window_Duration PerMonth)
        <> Date (Year t') (Month t' + 1) 1 0 0 0 0).
Proof.
  destruct (civil_of_time t) as (Hm & Hd & Hdays).
  assert (Hdiv : days_of (Window_BucketStart PerMonth t) =
                 days_from_civil (Year t) (Month t) 1).
  { rewrite BucketStart_PerMonth_eq. unfold days_of.
    apply Z.div_mul. unfold Day_ns, Hour, Minute, Second. lia. }
  assert (Hfirst := Calendar.first_of_month (Year t) (Month t) Hm).
  split; [reflexivity|].
  split; [reflexivity|].
  split; [unfold Year; rewrite Hdiv, Hfirst; reflexivity|].
  split; [unfold Month; rewrite Hdiv, Hfirst; reflexivity|].
  split; [unfold DayOf; rewrite Hdiv, Hfirst; reflexivity|].
  split.
  { unfold ns_of_day. rewrite BucketStart_PerMonth_eq. apply Z.mod_mul.
    unfold Day_ns, Hour, Minute, Second. lia. }
  split.
  { rewrite BucketStart_PerMonth_eq.
    rewrite Calendar.days_from_civil_day in Hdays.
    unfold days_of in Hdays.
    pose proof (Z.mul_div_le t Day_ns ltac:(unfold Day_ns, Hour, Minute, Second; lia)).
    assert (0 < Day_ns) by (unfold Day_ns, Hour, Minute, Second; lia).
    unfold Time in *. nia. }
  exists (1705329000 * Second).
  vm_compute. discriminate.
Qed.

(* ===================================================================== *)
(** ** Glob matching *)

Module Matcher.

Lemma ascii_eqb_refl (c : ascii) : Ascii.eqb c c = true.
Proof. apply Ascii.eqb_eq. reflexivity. Qed.

Lemma length_app (m r : string) :
  String.length (String.append m r) = (String.length m + String.length r)%nat.
Proof. induction m as [|c m IH]; simpl; [reflexivity|now rewrite IH]. Qed.

Lemma drop_app (m r : string) : strings.drop (String.length m) (m ++ r) = r.
Proof. induction m as [|c m IH]; [reflexivity|exact IH]. Qed.

(** The loop agrees with a fresh call: the fast path is subsumed. *)
Lemma loop_is_call (p s : string) : wildcardMatch_loop p s = wildcardMatch p s.
Proof.
  unfold wildcardMatch. destruct (String.eqb_spec p "*") as [->|]; reflexivity.
Qed.

Lemma star_branch (rest str : string) (i : nat) :
  rest <> EmptyString -> (i <= String.length str)%nat ->
  wildcardMatch rest (strings.drop i str) = true ->
  wildcardMatch_loop (String "*" rest) str = true.
Proof.
  intros Hne Hi H. cbn [wildcardMatch_loop]. rewrite ascii_eqb_refl.
  destruct rest as [|c0 rest0]; [congruence|].
  apply existsb_exists. exists i. split; [apply in_seq; lia|].
  unfold wildcardMatch in H. exact H.
Qed.

Lemma call_star (rest str : string) (i : nat) :
  (i <= String.length str)%nat ->
  wildcardMatch rest (strings.drop i str) = true ->
  wildcardMatch (String "*" rest) str = true.
Proof.
  intros Hi H. destruct rest as [|c0 rest0].
  - reflexivity.
  - rewrite <- loop_is_call. eapply star_branch; [discriminate|exact Hi|exact H].
Qed.

Lemma call_char (c : ascii) (p s : string) :
  c <> "*"%char -> wildcardMatch p s = true ->
  wildcardMatch (String c p) (String c s) = true.
Proof.
  intros Hc H. rewrite <- loop_is_call. cbn [wildcardMatch_loop].
  destruct (Ascii.eqb_spec c "*"); [congruence|].
  rewrite ascii_eqb_refl, loop_is_call. exact H.
Qed.

(** Every pattern matches itself. *)
Lemma self_match (p : string) : wildcardMatch p p = true.
Proof.
  induction p as [|c p IH]; [reflexivity|].
  destruct (Ascii.eqb_spec c "*") as [->|Hc].
  - apply (call_star p (String "*" p) 1); [cbn; lia|exact IH].
  - apply call_char; assumption.
Qed.

Lemma star_split (p m s r : string) :
  wildcardMatch s r = true ->
  wildcardMatch (p ++ "*" ++ s) (p ++ m ++ r) = true.
Proof.
  intros Hsr. induction p as [|c p IH].
  - cbn [String.append].
    apply (call_star s (m ++ r) (String.length m)).
    + rewrite length_app. lia.
    + rewrite drop_app. exact Hsr.
  - cbn [String.append].
    destruct (Ascii.eqb_spec c "*") as [->|Hc].
    + apply (call_star _ _ 1); [simpl; lia|exact IH].
    + apply call_char; assumption.
Qed.

Lemma wildcard_glob (p v : string) :
  wildcardMatch p v = true -> globMatch p v = true.
Proof.
  intros H. unfold globMatch. rewrite H.
  destruct (String.eqb p v); [reflexivity|].
  destruct (_ && _)%bool; reflexivity.
Qed.

End Matcher.

(** ** C6: a star matches any substring, at every split point. *)
(** Claim C6: in glob matching a star matches zero or more characters,
    '/' included, and every split point is tried: for every prefix p,
    suffix s and middle m (empty included) the pattern p ++ "*" ++ s
    matches p ++ m ++ s, and more generally p ++ m ++ r for every r that
    s matches; this holds for wildcardMatch and for globMatch. *)
Theorem star_matches_every_split (p m s : string) :
  wildcardMatch (p ++ "*" ++ s) (p ++ m ++ s) = true
  /\ globMatch (p ++ "*" ++ s) (p ++ m ++ s) = true
  /\ (forall r : string, wildcardMatch s r = true ->
        wildcardMatch (p ++ "*" ++ s) (p ++ m ++ r) = true
        /\ globMatch (p ++ "*" ++ s) (p ++ m ++ r) = true).
Proof.
  assert (Hall : forall r, wildcardMatch s r = true ->
            wildcardMatch (p ++ "*" ++ s) (p ++ m ++ r) = true
            /\ globMatch (p ++ "*" ++ s) (p ++ m ++ r) = true).
  { intros r Hr. pose proof (Matcher.star_split p m s r Hr) as H.
    split; [exact H|apply Matcher.wildcard_glob, H]. }
  destruct (Hall s (Matcher.self_match s)) as [H1 H2].
  split; [exact H1|]. split; [exact H2|exact Hall].
Qed.

(* ===================================================================== *)
(** ** Increment on the three backends *)

(* ===================================================================== *)
(** ** The SQLite and Redis stores over a driver or client that does every call *)

Module Reliable.

Import store.

Lemma sql_Increment_table (key : string) (w : Window) (db : SQLiteStore) :
  Increment key w db =
  match db !! key with
  | None =>
      ((1, None),
       <[key := {| row_count := 1; row_bucket_key := BucketKey w;
                   row_window_seconds := window_seconds w |}]> db)
  | Some r =>
      let count := wrap64 ((if negb (String.eqb (row_bucket_key r) (BucketKey w)) then 0
                            else row_count r) + 1) in
      ((count, None),
       <[key := {| row_count := count; row_bucket_key := BucketKey w;
                   row_window_seconds := window_seconds w |}]> db)
  end.
Proof.
  cbn [Increment SQLiteStore_Store]. unfold on_table, SQLiteStore_Increment.
  cbn [driver_call conn_driver conn_table].
  destruct (db !! key); reflexivity.
Qed.

Lemma sql_Get_table (key : string) (w : Window) (db : SQLiteStore) :
  Get key w db =
  (match db !! key with
   | None => (0, None)
   | Some r => if negb (String.eqb (row_bucket_key r) (BucketKey w)) then (0, None)
               else (row_count r, None)
   end, db).
Proof.
  cbn [Get SQLiteStore_Store]. unfold on_table, SQLiteStore_Get.
  cbn [driver_call conn_driver conn_table].
  destruct (db !! key) as [r|]; [destruct (negb _)|]; reflexivity.
Qed.

Lemma sql_Reset_table (key : string) (db : SQLiteStore) :
  Reset key db = (None, delete key db).
Proof. reflexivity. Qed.

Lemma hincrby_cases (h : redis.hash) :
  (redis.h_count h + 1 > max_int64 /\ redis.hincrby h = None)
  \/ (redis.h_count h + 1 <= max_int64
      /\ exists h', redis.hincrby h = Some h'
         /\ redis.h_count h' = redis.h_count h + 1
         /\ redis.h_bucket_key h' = redis.h_bucket_key h
         /\ redis.h_ttl h' = redis.h_ttl h).
Proof.
  unfold redis.hincrby.
  destruct (Z_le_gt_dec (redis.h_count h + 1) max_int64) as [E|E].
  - right. split; [lia|]. eexists. split; [reflexivity|]. cbn. auto.
  - left. split; [lia|reflexivity].
Qed.


Lemma redis_Increment_db (key : string) (w : Window) (db : redis.RedisStore) :
  Increment key w db =
  match redis.incrementScript (redis.redisKey key) (BucketKey w) (window_seconds w) db with
  | (inl result, db') => ((result, None), db')
  | (inr msg, db') =>
      ((0, Some (Errorf "erl/store/redis: increment: %w" (BackendError msg))), db')
  end.
Proof.
  cbn [Increment redis.RedisStore_Store]. unfold redis.on_db, redis.RedisStore_Increment.
  cbn [redis.client_call redis.conn_client redis.conn_db].
  destruct (redis.incrementScript _ _ _ _) as [[r|m] db']; reflexivity.
Qed.

Lemma redis_Get_db (key : string) (w : Window) (db : redis.RedisStore) :
  Get key w db =
  (match db !! redis.redisKey key with
   | None => (0, None)
   | Some h => if negb (String.eqb (redis.h_bucket_key h) (BucketKey w)) then (0, None)
               else (redis.h_count h, None)
   end, db).
Proof.
  cbn [Get redis.RedisStore_Store]. unfold redis.on_db, redis.RedisStore_Get.
  cbn [redis.client_call redis.conn_client redis.conn_db].
  destruct (db !! _) as [h|]; [destruct (negb _)|]; try reflexivity.
  unfold redis.ParseInt. rewrite (redis.h_count_int64 h). reflexivity.
Qed.

Lemma redis_Reset_db (key : string) (db : redis.RedisStore) :
  Reset key db = (None, delete (redis.redisKey key) db).
Proof. reflexivity. Qed.

End Reliable.

Module IncrementProofs.

Import store Views.

Lemma wrap64_id (z : Z) : min_int64 <= z <= max_int64 -> wrap64 z = z.
Proof.
  unfold wrap64, min_int64, max_int64. intros Hz.
  rewrite Z.mod_small by lia. ring.
Qed.

Lemma mem_increment (key : string) (w : Window) (m : MemoryStore) :
  below_max (mem_stored m key) w ->
  MemoryStore_Increment key w m =
  ((next_count (mem_stored m key) w, None),
   <[key := {| count := next_count (mem_stored m key) w; bucketKey := BucketKey w |}]> m).
Proof.
  unfold MemoryStore_Increment, mem_stored, next_count, below_max.
  destruct (m !! key) as [b|]; intros Hb.
  - destruct (String.eqb_spec (bucketKey b) (BucketKey w)) as [E|E];
      cbn [count bucketKey].
    + specialize (Hb E).
      rewrite wrap64_id by (unfold min_int64, max_int64 in *; lia). rewrite E. reflexivity.
    + rewrite wrap64_id by (unfold min_int64, max_int64; lia). reflexivity.
  - cbn [count bucketKey].
    rewrite wrap64_id by (unfold min_int64, max_int64; lia). reflexivity.
Qed.

Lemma sql_increment (key : string) (w : Window) (db : SQLiteStore) :
  below_max (sql_stored db key) w ->
  fst (Increment key w db) = (next_count (sql_stored db key) w, None)
  /\ sql_stored (snd (Increment key w db)) key =
     Some (next_count (sql_stored db key) w, BucketKey w).
Proof.
  rewrite Reliable.sql_Increment_table. unfold sql_stored, next_count, below_max.
  destruct (db !! key) as [r|]; intros Hb.
  - destruct (String.eqb_spec (row_bucket_key r) (BucketKey w)) as [E|E];
      cbn [negb fst snd]; [specialize (Hb E)|];
      rewrite wrap64_id by (unfold min_int64, max_int64 in *; lia);
      rewrite lookup_insert_eq; split; reflexivity.
  - cbn [fst snd]. rewrite lookup_insert_eq. split; reflexivity.
Qed.

Lemma redis_increment (key : string) (w : Window) (db : redis.RedisStore) :
  below_max (redis_stored db key) w ->
  fst (Increment key w db) = (next_count (redis_stored db key) w, None)
  /\ redis_stored (snd (Increment key w db)) key =
     Some (next_count (redis_stored db key) w, BucketKey w).
Proof.
  rewrite Reliable.redis_Increment_db.
  unfold redis.incrementScript, redis_stored, next_count, below_max.
  destruct (db !! redis.redisKey key) as [h|]; intros Hb.
  - destruct (String.eqb_spec (redis.h_bucket_key h) (BucketKey w)) as [E|E];
      cbn [negb fst snd].
    + specialize (Hb E).
      destruct (Reliable.hincrby_cases h) as [[Hgt _]|[_ [h' [-> [Hc [Hk _]]]]]];
        [lia|].
      cbn [fst snd]. rewrite lookup_insert_eq, Hc, Hk, E. split; reflexivity.
    + cbn [fst snd]. rewrite lookup_insert_eq. split; reflexivity.
  - cbn [fst snd]. rewrite lookup_insert_eq. split; reflexivity.
Qed.

Lemma mem_increment_stored (key : string) (w : Window) (m : MemoryStore) :
  below_max (mem_stored m key) w ->
  fst (MemoryStore_Increment key w m) = (next_count (mem_stored m key) w, None)
  /\ mem_stored (snd (MemoryStore_Increment key w m)) key =
     Some (next_count (mem_stored m key) w, BucketKey w).
Proof.
  intros Hb. rewrite (mem_increment key w m Hb). cbn [fst snd].
  split; [reflexivity|]. unfold mem_stored at 1. rewrite lookup_insert_eq. reflexivity.
Qed.

End IncrementProofs.

Module RolloverProofs.

Import store Views IncrementProofs.

Section Generic.

Context {S : Type} `{Store S}.
Variable stored : S -> string -> option (Z * string).
Hypothesis Hinc : forall key w st,
  below_max (stored st key) w ->
  fst (Increment key w st) = (next_count (stored st key) w, None)
  /\ stored (snd (Increment key w st)) key = Some (next_count (stored st key) w, BucketKey w).

Lemma next_one_below (o : option (Z * string)) (w : Window) :
  next_count o w = 1 -> below_max o w.
Proof.
  destruct o as [[c bk]|]; cbn; [|trivial].
  destruct (String.eqb_spec bk (BucketKey w)); intros Hc E;
    [unfold min_int64, max_int64; lia|congruence].
Qed.

Lemma three_increments_generic (key : string) (a b : Window) (st : S) :
  BucketKey a <> BucketKey b -> next_count (stored st key) a = 1 ->
  three_increments key a b st = (1, 2, 1).
Proof.
  intros Hab H1. unfold three_increments.
  destruct (Hinc key a st (next_one_below _ _ H1)) as [R1 S1].
  destruct (Increment key a st) as [[c1 e1] st1]. cbn in R1, S1.
  rewrite H1 in R1, S1. injection R1 as -> ->.
  assert (B1 : below_max (stored st1 key) a)
    by (rewrite S1; cbn; intros _; unfold min_int64, max_int64; lia).
  destruct (Hinc key a st1 B1) as [R2 S2].
  destruct (Increment key a st1) as [[c2 e2] st2]. cbn in R2, S2.
  rewrite S1 in R2, S2. cbn in R2, S2. rewrite String.eqb_refl in R2, S2.
  injection R2 as -> ->.
  assert (B2 : below_max (stored st2 key) b)
    by (rewrite S2; cbn; intros E; congruence).
  destruct (Hinc key b st2 B2) as [R3 _].
  destruct (Increment key b st2) as [[c3 e3] st3]. cbn in R3.
  rewrite S2 in R3. cbn in R3.
  destruct (String.eqb_spec (BucketKey a) (BucketKey b)); [congruence|].
  injection R3 as -> ->. reflexivity.
Qed.

End Generic.

End RolloverProofs.

(** ** C2: Increment on every counter-store backend. *)
(** Claim C2: for the Memory, SQLite and Redis backends, Increment(key, w)
    returns 1 when no counter exists for key or its stored bucket key
    differs from w's, and the stored count plus one otherwise (the stored
    count being an int64 below the int64 maximum); in particular two
    increments in bucket A then one in bucket B, starting from no count in
    bucket A, return 1, 2, 1. *)
Theorem Increment_counts_with_rollover (key : string) (w : store.Window) :
  (forall m : store.MemoryStore,
     Views.below_max (Views.mem_stored m key) w ->
     fst (store.Increment key w m) = (Views.next_count (Views.mem_stored m key) w, None))
  /\ (forall db : store.SQLiteStore,
     Views.below_max (Views.sql_stored db key) w ->
     fst (store.Increment key w db) = (Views.next_count (Views.sql_stored db key) w, None))
  /\ (forall db : redis.RedisStore,
     Views.below_max (Views.redis_stored db key) w ->
     fst (store.Increment key w db) = (Views.next_count (Views.redis_stored db key) w, None))
  /\ (forall a b : store.Window, store.BucketKey a <> store.BucketKey b ->
       (forall m : store.MemoryStore, Views.next_count (Views.mem_stored m key) a = 1 ->
          Views.three_increments key a b m = (1, 2, 1))
       /\ (forall db : store.SQLiteStore, Views.next_count (Views.sql_stored db key) a = 1 ->
          Views.three_increments key a b db = (1, 2, 1))
       /\ (forall db : redis.RedisStore, Views.next_count (Views.redis_stored db key) a = 1 ->
          Views.three_increments key a b db = (1, 2, 1))).
Proof.
  split; [intros m Hb; apply (IncrementProofs.mem_increment_stored key w m Hb)|].
  split; [intros db Hb; apply (IncrementProofs.sql_increment key w db Hb)|].
  split; [intros db Hb; apply (IncrementProofs.redis_increment key w db Hb)|].
  intros a b Hab. split; [|split].
  - intros m. apply (RolloverProofs.three_increments_generic Views.mem_stored);
      [exact IncrementProofs.mem_increment_stored|exact Hab].
  - intros db. apply (RolloverProofs.three_increments_generic Views.sql_stored);
      [exact IncrementProofs.sql_increment|exact Hab].
  - intros db. apply (RolloverProofs.three_increments_generic Views.redis_stored);
      [exact IncrementProofs.redis_increment|exact Hab].
Qed.

(* ===================================================================== *)
(** ** Get on the backends, and the tiered store *)

Module GetProofs.

Import store Views.

Lemma mem_get (key : string) (w : Window) (m : MemoryStore) :
  MemoryStore_Get key w m = ((read_count (mem_stored m key) w, None), m).
Proof.
  unfold MemoryStore_Get, mem_stored, read_count.
  destruct (m !! key) as [b|]; [destruct (String.eqb _ _)|]; reflexivity.
Qed.

Lemma sql_get (key : string) (w : Window) (db : SQLiteStore) :
  Get key w db = ((read_count (sql_stored db key) w, None), db).
Proof.
  rewrite Reliable.sql_Get_table. unfold sql_stored, read_count.
  destruct (db !! key) as [r|]; [destruct (String.eqb _ _)|]; reflexivity.
Qed.

Lemma redis_get (key : string) (w : Window) (db : redis.RedisStore) :
  Get key w db = ((read_count (redis_stored db key) w, None), db).
Proof.
  rewrite Reliable.redis_Get_db. unfold redis_stored, read_count.
  destruct (db !! _) as [h|]; [destruct (String.eqb _ _)|]; reflexivity.
Qed.

(** What TieredStore.Get does, given what its durable tier's Get does. *)
Lemma tiered_get {P : Type} `{Store P} (key : string) (w : Window)
    (t : tiered.TieredStore P) :
  let cm := read_count (mem_stored (tiered.memory t) key) w in
  (cm > 0 -> tiered.TieredStore_Get key w t = ((cm, None), t))
  /\ (cm <= 0 -> forall c e p',
        Get key w (tiered.persistent t) = ((c, e), p') ->
        tiered.TieredStore_Get key w t =
        match e with
        | Some e => ((0, Some e), {| tiered.memory := tiered.memory t; tiered.persistent := p' |})
        | None =>
            ((c, None),
             {| tiered.memory := if c >? 0
                                 then <[key := {| count := c; bucketKey := BucketKey w |}]>
                                        (tiered.memory t)
                                 else tiered.memory t;
                tiered.persistent := p' |})
        end).
Proof.
  cbv zeta. unfold tiered.TieredStore_Get. rewrite mem_get.
  destruct t as [m p]; cbn [tiered.memory tiered.persistent].
  split.
  - intros Hc. assert (E : (read_count (mem_stored m key) w >? 0) = true) by lia.
    rewrite E. reflexivity.
  - intros Hc c e p' Hp.
    assert (E : (read_count (mem_stored m key) w >? 0) = false) by lia.
    rewrite E, Hp. destruct e; reflexivity.
Qed.

(** The SQLite and Redis increments store the count they return. *)
Lemma sql_increment_stores (key : string) (w : Window) (db : SQLiteStore) :
  sql_stored (snd (Increment key w db)) key =
  Some (fst (fst (Increment key w db)), BucketKey w).
Proof.
  rewrite Reliable.sql_Increment_table. unfold sql_stored.
  destruct (db !! key) as [r|]; cbn [fst snd]; rewrite lookup_insert_eq; reflexivity.
Qed.

Lemma redis_increment_stores (key : string) (w : Window) (db : redis.RedisStore) c db' :
  Increment key w db = ((c, None), db') ->
  redis_stored db' key = Some (c, BucketKey w).
Proof.
  rewrite Reliable.redis_Increment_db. unfold redis.incrementScript, redis_stored.
  destruct (db !! redis.redisKey key) as [h|].
  - destruct (String.eqb_spec (redis.h_bucket_key h) (BucketKey w)) as [E|E];
      cbn [negb].
    + destruct (Reliable.hincrby_cases h) as [[_ ->]|[_ [h' [-> [_ [Hk _]]]]]];
        intros [= <- <-].
      rewrite lookup_insert_eq. rewrite Hk, E. reflexivity.
    + intros [= <- <-]. rewrite lookup_insert_eq. reflexivity.
  - intros [= <- <-]. rewrite lookup_insert_eq. reflexivity.
Qed.

(** A successful write-through returns, and leaves, what the durable tier's
    Increment returned and left. *)
Lemma tiered_increment_ok {P : Type} `{Store P} (key : string) (w : Window)
    (t : tiered.TieredStore P) c t' :
  tiered.TieredStore_Increment key w t = ((c, None), t') ->
  fst (Increment key w (tiered.persistent t)) = (c, None)
  /\ tiered.persistent t' = snd (Increment key w (tiered.persistent t)).
Proof.
  unfold tiered.TieredStore_Increment.
  destruct (Increment key w (tiered.persistent t)) as [[c0 e0] p0].
  destruct e0 as [e0|]; [discriminate|].
  destruct (MemoryStore_Increment key w (tiered.memory t)) as [r0 m0].
  intros [= <- <-]. split; reflexivity.
Qed.

End GetProofs.

(** ** C4: TieredStore.Get reads memory first, then falls back and backfills. *)
(** Claim C4: TieredStore.Get returns the memory tier's count when it is
    positive, leaving the store unchanged; when the memory tier reads zero
    it returns the durable tier's count and, if that count is positive,
    backfills the memory tier with exactly that count and the window's
    bucket key.  Hence a fresh TieredStore over the durable backend (SQLite
    or Redis) left by a successful write-through Increment that returned c
    reads c back from Get. *)
Theorem TieredStore_Get_fallback_backfill :
  (forall (P : Type) `{store.Store P} (key : string) (w : store.Window)
          (t : tiered.TieredStore P),
     let cm := Views.read_count (Views.mem_stored (tiered.memory t) key) w in
     (cm > 0 -> store.Get key w t = ((cm, None), t))
     /\ (cm = 0 -> forall c p',
           store.Get key w (tiered.persistent t) = ((c, None), p') ->
           store.Get key w t =
           ((c, None),
            {| tiered.memory :=
                 if c >? 0
                 then <[key := {| store.count := c; store.bucketKey := store.BucketKey w |}]>
                        (tiered.memory t)
                 else tiered.memory t;
               tiered.persistent := p' |})))
  /\ (forall (key : string) (w : store.Window) (t t' : tiered.TieredStore store.SQLiteStore) c,
        store.Increment key w t = ((c, None), t') ->
        fst (store.Get key w (tiered.NewTieredStore (tiered.persistent t'))) = (c, None))
  /\ (forall (key : string) (w : store.Window) (t t' : tiered.TieredStore redis.RedisStore) c,
        store.Increment key w t = ((c, None), t') ->
        fst (store.Get key w (tiered.NewTieredStore (tiered.persistent t'))) = (c, None)).
Proof.
  split; [|split].
  - intros P HP key w t cm.
    destruct (GetProofs.tiered_get key w t) as [G1 G2].
    split; [exact G1|].
    intros Hz c p' Hp. cbn. rewrite (G2 ltac:(unfold cm in Hz; lia) c None p' Hp).
    reflexivity.
  - intros key w t t' c Hinc.
    destruct (GetProofs.tiered_increment_ok key w t c t' Hinc) as [Hc Hp].
    pose proof (GetProofs.sql_increment_stores key w (tiered.persistent t)) as Hs.
    rewrite Hc, <- Hp in Hs. cbn [fst] in Hs.
    destruct (GetProofs.tiered_get key w (tiered.NewTieredStore (tiered.persistent t')))
      as [_ G2].
    cbn. rewrite (G2 ltac:(reflexivity) c None (tiered.persistent t')).
    + reflexivity.
    + cbn [tiered.persistent tiered.NewTieredStore].
      rewrite GetProofs.sql_get, Hs. cbn. rewrite String.eqb_refl. reflexivity.
  - intros key w t t' c Hinc.
    destruct (GetProofs.tiered_increment_ok key w t c t' Hinc) as [Hc Hp].
    destruct (store.Increment key w (tiered.persistent t)) as [[c0 e0] p0] eqn:Er.
    cbn in Hc, Hp. injection Hc as -> ->.
    pose proof (GetProofs.redis_increment_stores key w _ c p0 Er) as Hs.
    rewrite <- Hp in Hs.
    destruct (GetProofs.tiered_get key w (tiered.NewTieredStore (tiered.persistent t')))
      as [_ G2].
    cbn. rewrite (G2 ltac:(reflexivity) c None (tiered.persistent t')).
    + reflexivity.
    + cbn [tiered.persistent tiered.NewTieredStore].
      rewrite GetProofs.redis_get, Hs. cbn. rewrite String.eqb_refl. reflexivity.
Qed.

(** ** C5: Get and the state of the stores. *)
(** Claim C5, refuted: TieredStore.Get is not read-only.  A fresh tiered
    store over an SQLite table holding count 3 for "k" in bucket "B"
    returns 3 from Get and, in doing so, writes that count into its memory
    tier, so the store after the call differs from the store before. *)
Lemma TieredStore_Get_writes_memory_tier :
  let db := <["k" := {| store.row_count := 3; store.row_bucket_key := "B";
                        store.row_window_seconds := 60 |}]> (∅ : store.SQLiteStore) in
  let w := {| store.Duration := Minute; store.BucketKey := "B"; store.BucketStart := 0 |} in
  let t := tiered.NewTieredStore db in
  fst (store.Get "k" w t) = (3, None)
  /\ tiered.memory t !! "k" = None
  /\ tiered.memory (snd (store.Get "k" w t)) !! "k" =
       Some {| store.count := 3; store.bucketKey := "B" |}
  /\ snd (store.Get "k" w t) <> t.
Proof.
  cbv zeta. split; [vm_compute; reflexivity|].
  split; [vm_compute; reflexivity|].
  split; [vm_compute; reflexivity|].
  intros H. apply (f_equal (fun t => tiered.memory t !! "k")) in H.
  vm_compute in H. discriminate H.
Qed.

(** Claim C5, as amended: Get on the Memory, SQLite and Redis backends
    leaves the store unchanged and returns the stored count when the
    stored bucket key is the window's, 0 otherwise (0 and no error for a
    missing key).  TieredStore.Get (over SQLite or Redis) leaves its
    durable tier unchanged but not its memory tier: it returns the memory
    count when positive; otherwise it returns the durable count and, when
    that is positive, writes it with the window's bucket key into the
    memory tier. *)
Theorem Get_read_only_except_tiered_backfill (key : string) (w : store.Window) :
  (forall m : store.MemoryStore,
     store.Get key w m = ((Views.read_count (Views.mem_stored m key) w, None), m))
  /\ (forall db : store.SQLiteStore,
     store.Get key w db = ((Views.read_count (Views.sql_stored db key) w, None), db))
  /\ (forall db : redis.RedisStore,
     store.Get key w db = ((Views.read_count (Views.redis_stored db key) w, None), db))
  /\ (forall t : tiered.TieredStore store.SQLiteStore,
     let cm := Views.read_count (Views.mem_stored (tiered.memory t) key) w in
     let cd := Views.read_count (Views.sql_stored (tiered.persistent t) key) w in
     store.Get key w t =
     if cm >? 0 then ((cm, None), t)
     else ((cd, None),
           {| tiered.memory :=
                if cd >? 0
                then <[key := {| store.count := cd; store.bucketKey := store.BucketKey w |}]>
                       (tiered.memory t)
                else tiered.memory t;
              tiered.persistent := tiered.persistent t |}))
  /\ (forall t : tiered.TieredStore redis.RedisStore,
     let cm := Views.read_count (Views.mem_stored (tiered.memory t) key) w in
     let cd := Views.read_count (Views.redis_stored (tiered.persistent t) key) w in
     store.Get key w t =
     if cm >? 0 then ((cm, None), t)
     else ((cd, None),
           {| tiered.memory :=
                if cd >? 0
                then <[key := {| store.count := cd; store.bucketKey := store.BucketKey w |}]>
                       (tiered.memory t)
                else tiered.memory t;
              tiered.persistent := tiered.persistent t |})).
Proof.
  split; [intros m; apply GetProofs.mem_get|].
  split; [intros db; apply GetProofs.sql_get|].
  split; [intros db; apply GetProofs.redis_get|].
  split.
  - intros t cm cd.
    destruct (GetProofs.tiered_get key w t) as [G1 G2]. fold cm in G1, G2.
    destruct (Z.gtb_spec cm 0) as [Hc|Hc].
    + exact (G1 ltac:(lia)).
    + exact (G2 ltac:(lia) cd None (tiered.persistent t) (GetProofs.sql_get key w _)).
  - intros t cm cd.
    destruct (GetProofs.tiered_get key w t) as [G1 G2]. fold cm in G1, G2.
    destruct (Z.gtb_spec cm 0) as [Hc|Hc].
    + exact (G1 ltac:(lia)).
    + exact (G2 ltac:(lia) cd None (tiered.persistent t) (GetProofs.redis_get key w _)).
Qed.

(** ** C10: a failed durable write leaves the memory tier alone. *)
(** Claim C10: when the durable tier's Increment fails, TieredStore.Increment
    returns count 0 with that error and skips the memory increment: the
    memory tier is exactly what it was. *)
Theorem TieredStore_Increment_durable_error {P : Type} `{store.Store P}
    (key : string) (w : store.Window) (t : tiered.TieredStore P) c e p' :
  store.Increment key w (tiered.persistent t) = ((c, Some e), p') ->
  store.Increment key w t =
  ((0, Some e), {| tiered.memory := tiered.memory t; tiered.persistent := p' |}).
Proof.
  intros He. cbn [store.Increment tiered.TieredStore_Store].
  unfold tiered.TieredStore_Increment. rewrite He. reflexivity.
Qed.

(** A Redis counter at the int64 maximum makes HINCRBY fail. *)
Lemma TieredStore_Increment_durable_error_witness :
  let db := <[redis.redisKey "k" := {| redis.h_count := max_int64; redis.h_bucket_key := "B";
                                      redis.h_ttl := Some 60; redis.h_count_int64 := eq_refl |}]> (∅ : redis.RedisStore) in
  let w := {| store.Duration := Minute; store.BucketKey := "B"; store.BucketStart := 0 |} in
  let e := Errorf "erl/store/redis: increment: %w"
             (BackendError "ERR increment or decrement would overflow") in
  let t := {| tiered.memory := <["k" := {| store.count := 7; store.bucketKey := "B" |}]> ∅;
              tiered.persistent := db |} in
  store.Increment "k" w (tiered.persistent t) = ((0, Some e), db)
  /\ store.Increment "k" w t =
     ((0, Some e), {| tiered.memory := tiered.memory t; tiered.persistent := db |}).
Proof.
  cbv zeta. split.
  - vm_compute. reflexivity.
  - apply (@TieredStore_Increment_durable_error redis.RedisStore _ "k" _ _ 0).
    vm_compute. reflexivity.
Defined.

(* ===================================================================== *)
(** ** Limiter.Check *)

Module CheckProofs.

Import Views.

Section Check.

Variable url_Parse : string -> option (string * string).
Context {S : Type} `{store.Store S}.

Lemma check_first_match (l : Limiter) (rawURL : string) (now : Time) (st : S) :
  Check url_Parse l rawURL now st =
  match first_match url_Parse (resources l) rawURL with
  | None => (None, st, [])
  | Some r => check_matched l r now st
  end.
Proof.
  unfold Check. induction (resources l) as [|r rs IH]; [reflexivity|].
  cbn [check_loop first_match].
  destruct (matchURL url_Parse rawURL (Pattern r)); [reflexivity|exact IH].
Qed.

Lemma check_matched_ok (l : Limiter) (r : Resource) (now : Time) (st st' : S) current :
  store.Increment (Name r) (window_of r now) st = ((current, None), st') ->
  check_matched l r now st =
  (fst (apply_strategy l r (window_of r now) current), st',
   snd (apply_strategy l r (window_of r now) current)).
Proof.
  intros Hi. unfold check_matched. rewrite Hi.
  destruct (apply_strategy l r (window_of r now) current); reflexivity.
Qed.

Lemma check_ok (l : Limiter) (rawURL : string) (now : Time) (st st' : S) r current :
  first_match url_Parse (resources l) rawURL = Some r ->
  store.Increment (Name r) (window_of r now) st = ((current, None), st') ->
  Check url_Parse l rawURL now st =
  (fst (apply_strategy l r (window_of r now) current), st',
   snd (apply_strategy l r (window_of r now) current)).
Proof.
  intros Hm Hi. rewrite check_first_match, Hm. exact (check_matched_ok l r now st st' current Hi).
Qed.

End Check.

(** The strategy switch, case by case. *)
Lemma apply_strategy_under (l : Limiter) r w current :
  current <= Limit r -> apply_strategy l r w current = (None, []).
Proof.
  intros Hc. unfold apply_strategy.
  replace (current >? Limit r) with false by lia. reflexivity.
Qed.

Lemma apply_strategy_over (l : Limiter) r w current :
  current > Limit r ->
  snd (apply_strategy l r w current) =
    (if onLimitReached l then [LimitReached r current] else [])
  /\ fst (apply_strategy l r w current) =
     (if (Resource_Strategy r =? Block) || (Resource_Strategy r =? BlockWithQueue)
      then Some (LimitExceededError r current
                   (Add (store.BucketStart w) (store.Duration w)))
      else None).
Proof.
  intros Hc. unfold apply_strategy.
  replace (current >? Limit r) with true by lia.
  destruct (Resource_Strategy r =? Block); [split; reflexivity|].
  destruct (Resource_Strategy r =? BlockWithQueue); [split; reflexivity|].
  destruct (Resource_Strategy r =? LogOnly); split; reflexivity.
Qed.

End CheckProofs.

(** ** C9: when Check returns an error. *)
(** Claim C9: when Check matches resource r (the first match) and the
    store's Increment succeeds with count current, Check returns an error
    exactly when current exceeds r's limit and r's strategy is Block or
    BlockWithQueue; for every other strategy value (LogOnly, or any int
    outside the three constants) it returns nil, and whenever current
    exceeds the limit the limit-reached callback (when set) is invoked
    with (r, current). *)
Theorem Check_error_iff_blocking_over_limit
    (url_Parse : string -> option (string * string)) {S : Type} `{store.Store S}
    (l : Limiter) (rawURL : string) (now : Time) (st st' : S) (r : Resource) (current : Z) :
  first_match url_Parse (resources l) rawURL = Some r ->
  store.Increment (Name r) (window_of r now) st = ((current, None), st') ->
  snd (fst (Check url_Parse l rawURL now st)) = st'
  /\ (fst (fst (Check url_Parse l rawURL now st)) <> None <->
      current > Limit r
      /\ (Resource_Strategy r = Block \/ Resource_Strategy r = BlockWithQueue))
  /\ (Resource_Strategy r <> Block -> Resource_Strategy r <> BlockWithQueue ->
      fst (fst (Check url_Parse l rawURL now st)) = None)
  /\ snd (Check url_Parse l rawURL now st) =
     (if (current >? Limit r) && onLimitReached l then [LimitReached r current] else []).
Proof.
  intros Hm Hi. rewrite (CheckProofs.check_ok url_Parse l rawURL now st st' r current Hm Hi).
  cbn [fst snd].
  destruct (Z.gtb_spec current (Limit r)) as [Hc|Hc].
  - destruct (CheckProofs.apply_strategy_over l r (window_of r now) current ltac:(lia))
      as [Ev Res].
    rewrite Ev, Res.
    split; [reflexivity|].
    split; [|split].
    + destruct (Z.eqb_spec (Resource_Strategy r) Block) as [EB|EB];
      destruct (Z.eqb_spec (Resource_Strategy r) BlockWithQueue) as [EQ|EQ];
      cbn; split; try (intros; congruence); try (intros; split; [lia|tauto]).
      intros [_ [|]]; congruence.
    + intros NB NQ.
      destruct (Z.eqb_spec (Resource_Strategy r) Block); [congruence|].
      destruct (Z.eqb_spec (Resource_Strategy r) BlockWithQueue); [congruence|].
      reflexivity.
    + reflexivity.
  - rewrite (CheckProofs.apply_strategy_under l r (window_of r now) current ltac:(lia)).
    cbn [fst snd]. split; [reflexivity|].
    split; [|split; [reflexivity|reflexivity]].
    split; [congruence|lia].
Qed.

(** An out-of-range strategy value (7) over its limit 0: allowed, callback fired. *)
Lemma Check_error_iff_blocking_over_limit_witness :
  let r := {| Name := "api"; Pattern := "api.test.com/*"; Limit := 0;
              Resource_Window := PerMinute; Resource_Strategy := 7 |} in
  let l := {| resources := [r]; onLimitReached := true |} in
  let url := "https://api.test.com/v1/foo"%string in
  let now := 1705329000 * Second in
  first_match ExampleURL.parse (resources l) url = Some r
  /\ store.Increment (Name r) (window_of r now) (∅ : store.MemoryStore) =
     ((1, None), snd (store.Increment (Name r) (window_of r now) (∅ : store.MemoryStore)))
  /\ Check ExampleURL.parse l url now (∅ : store.MemoryStore) =
     (None, snd (store.Increment (Name r) (window_of r now) (∅ : store.MemoryStore)),
      [LimitReached r 1]).
Proof.
  cbv zeta. split; [vm_compute; reflexivity|]. split; [vm_compute; reflexivity|].
  pose proof (Check_error_iff_blocking_over_limit ExampleURL.parse
    {| resources := [{| Name := "api"; Pattern := "api.test.com/*"; Limit := 0;
                        Resource_Window := PerMinute; Resource_Strategy := 7 |}];
       onLimitReached := true |}
    "https://api.test.com/v1/foo" (1705329000 * Second) (∅ : store.MemoryStore) _ _ 1
    ltac:(vm_compute; reflexivity) ltac:(vm_compute; reflexivity)) as (H1 & _ & H3 & H4).
  specialize (H3 ltac:(discriminate) ltac:(discriminate)).
  destruct (Check _ _ _ _ _) as [[res st''] evs].
  cbn in H1, H3, H4. subst. reflexivity.
Defined.

(** ** C7: the limit-exceeded error. *)
(** Claim C7: every limit-exceeded error Check returns names the matched
    resource (the first registered resource whose pattern matches), the
    count the store returned, and the reset instant (bucket start plus
    window duration); it comes from a Block or BlockWithQueue resource over
    its limit, and errors.Is finds the ErrLimitExceeded sentinel in it, as
    it does in every LimitExceededError whatever its fields. *)
Theorem Check_limit_error_carries_fields
    (url_Parse : string -> option (string * string)) {S : Type} `{store.Store S}
    (l : Limiter) (rawURL : string) (now : Time) (st st'' : S) evs
    (r' : Resource) (c' : Z) (t' : Time) :
  Check url_Parse l rawURL now st = (Some (LimitExceededError r' c' t'), st'', evs) ->
  first_match url_Parse (resources l) rawURL = Some r'
  /\ fst (store.Increment (Name r') (window_of r' now) st) = (c', None)
  /\ c' > Limit r'
  /\ (Resource_Strategy r' = Block \/ Resource_Strategy r' = BlockWithQueue)
  /\ t' = Add (Window_BucketStart (Resource_Window r') now) (Window_Duration (Resource_Window r'))
  /\ errors_Is (LimitExceededError r' c' t') ErrLimitExceeded = true
  /\ (forall r c t, errors_Is (LimitExceededError r c t) ErrLimitExceeded = true).
Proof.
  rewrite CheckProofs.check_first_match.
  destruct (first_match url_Parse (resources l) rawURL) as [r|]; [|discriminate].
  unfold check_matched.
  destruct (store.Increment (Name r) (window_of r now) st) as [[current [e|]] st1] eqn:Ei;
    [discriminate|].
  unfold apply_strategy.
  destruct (Z.gtb_spec current (Limit r)) as [Hc|Hc]; [|discriminate].
  destruct (Z.eqb_spec (Resource_Strategy r) Block) as [EB|EB];
  [|destruct (Z.eqb_spec (Resource_Strategy r) BlockWithQueue) as [EQ|EQ];
    [|destruct (Resource_Strategy r =? LogOnly); discriminate]];
  intros [= <- <- <- _ _]; rewrite Ei;
  (split; [reflexivity|]); (split; [reflexivity|]); (split; [lia|]);
  (split; [tauto|]); (split; [reflexivity|]); split; reflexivity.
Qed.

(** A Block resource with limit 2, checked a third time in one minute. *)
Lemma Check_limit_error_carries_fields_witness :
  let r := {| Name := "test-api"; Pattern := "api.test.com/*"; Limit := 2;
              Resource_Window := PerMinute; Resource_Strategy := Block |} in
  let l := {| resources := [r]; onLimitReached := false |} in
  let url := "https://api.test.com/v1/foo"%string in
  let now := 1705329000 * Second in
  let m := <["test-api" := {| store.count := 2; store.bucketKey := "2024-01-15T14:30" |}]>
             (∅ : store.MemoryStore) in
  let m' := <["test-api" := {| store.count := 3; store.bucketKey := "2024-01-15T14:30" |}]>
             (∅ : store.MemoryStore) in
  Check ExampleURL.parse l url now m =
    (Some (LimitExceededError r 3 (1705329060 * Second)), m', [])
  /\ 1705329060 * Second =
     Add (Window_BucketStart (Resource_Window r) now) (Window_Duration (Resource_Window r))
  /\ errors_Is (LimitExceededError r 3 (1705329060 * Second)) ErrLimitExceeded = true.
Proof.
  intros r l url now m m'.
  assert (Hc : Check ExampleURL.parse l url now m =
    (Some (LimitExceededError r 3 (1705329060 * Second)), m', [])) by (vm_compute; reflexivity).
  split; [exact Hc|].
  destruct (Check_limit_error_carries_fields ExampleURL.parse l url now m m' [] r 3
    (1705329060 * Second) Hc) as (_ & _ & _ & _ & Ht & Hi & _).
  split; [exact Ht|exact Hi].
Defined.

(** ** Runs of sequential checks in one bucket *)

Module SeqProofs.

Import store Views CheckViews.

Lemma next_count_same_key (o : option (Z * string)) (w w' : Window) :
  BucketKey w = BucketKey w' -> next_count o w = next_count o w'.
Proof. intros E. unfold next_count. rewrite E. reflexivity. Qed.

Lemma below_max_of_next (o : option (Z * string)) (w : Window) (k : Z) :
  next_count o w = k + 1 -> 0 <= k < max_int64 -> below_max o w.
Proof.
  unfold next_count, below_max. destruct o as [[c bk]|]; [|trivial].
  intros Hn Hk E. subst bk. rewrite String.eqb_refl in Hn.
  unfold min_int64, max_int64 in *. lia.
Qed.

Lemma nat_succ_count (k : Z) (i : nat) :
  k + Z.of_nat (S i) + 1 = k + 1 + Z.of_nat i + 1.
Proof. lia. Qed.

Section Seq.

Variable url_Parse : string -> option (string * string).
Context {S : Type} `{Store S}.

(** The stored (count, bucket key) of a key in a backend whose Increment
    behaves as bucket-scoped counting while no int64 overflow occurs. *)
Variable stored : S -> string -> option (Z * string).
Hypothesis Hinc : forall key w st,
  below_max (stored st key) w ->
  fst (Increment key w st) = (next_count (stored st key) w, None)
  /\ stored (snd (Increment key w st)) key = Some (next_count (stored st key) w, BucketKey w).

Lemma Check_seq_counts (l : Limiter) (rawURL : string) (r : Resource) (w0 : Window) :
  first_match url_Parse (resources l) rawURL = Some r ->
  forall (nows : list Time) (st : S) (k : Z),
  (forall now, In now nows -> BucketKey (window_of r now) = BucketKey w0) ->
  0 <= k -> k + Z.of_nat (length nows) <= max_int64 ->
  next_count (stored st (Name r)) w0 = k + 1 ->
  length (fst (fst (Check_seq url_Parse l rawURL nows st))) = length nows
  /\ length (snd (Check_seq url_Parse l rawURL nows st)) = length nows
  /\ forall (i : nat) (now : Time), nth_error nows i = Some now ->
     nth_error (fst (fst (Check_seq url_Parse l rawURL nows st))) i =
       Some (fst (apply_strategy l r (window_of r now) (k + Z.of_nat i + 1)))
     /\ nth_error (snd (Check_seq url_Parse l rawURL nows st)) i =
       Some (snd (apply_strategy l r (window_of r now) (k + Z.of_nat i + 1))).
Proof.
  intros Hm nows. induction nows as [|now nows' IH]; intros st k Hkey Hk Hlen Hn.
  - cbn. split; [reflexivity|]. split; [reflexivity|].
    intros i now Hi. destruct i; discriminate.
  - cbn [length] in Hlen.
    assert (Hw : BucketKey (window_of r now) = BucketKey w0) by (apply Hkey; left; reflexivity).
    assert (Hn' : next_count (stored st (Name r)) (window_of r now) = k + 1)
      by (rewrite (next_count_same_key _ _ _ Hw); exact Hn).
    destruct (Hinc (Name r) (window_of r now) st
                (below_max_of_next _ _ k Hn' ltac:(lia))) as [H1 H2].
    rewrite Hn' in H1, H2.
    set (st1 := snd (Increment (Name r) (window_of r now) st)) in H2.
    assert (Hi : Increment (Name r) (window_of r now) st = ((k + 1, None), st1)).
    { rewrite (surjective_pairing (Increment (Name r) (window_of r now) st)), H1. reflexivity. }
    destruct (IH st1 (k + 1) ltac:(intros x Hx; apply Hkey; right; exact Hx) ltac:(lia)
                ltac:(lia) ltac:(rewrite H2; unfold next_count; rewrite Hw, String.eqb_refl; reflexivity))
      as (L1 & L2 & Hnth).
    cbn [Check_seq].
    rewrite (CheckProofs.check_ok url_Parse l rawURL now st st1 r (k + 1) Hm Hi).
    destruct (Check_seq url_Parse l rawURL nows' st1) as [[ress st2] evss].
    cbn [fst snd length] in *.
    split; [congruence|]. split; [congruence|].
    intros [|i] x Hx; cbn [nth_error] in *.
    + injection Hx as <-. replace (k + Z.of_nat 0 + 1) with (k + 1) by lia.
      split; reflexivity.
    + rewrite nat_succ_count. exact (Hnth i x Hx).
Qed.

(** From a fresh counter (next count 1), a run follows the outcome table. *)
Lemma Check_seq_outcome (l : Limiter) (rawURL : string) (r : Resource) (w0 : Window)
    (nows : list Time) (st : S) :
  first_match url_Parse (resources l) rawURL = Some r ->
  (forall now, In now nows -> BucketKey (window_of r now) = BucketKey w0) ->
  Z.of_nat (length nows) <= max_int64 ->
  next_count (stored st (Name r)) w0 = 1 ->
  sequence_outcome l r nows (fst (fst (Check_seq url_Parse l rawURL nows st)))
                            (snd (Check_seq url_Parse l rawURL nows st)).
Proof.
  intros Hm Hkey Hlen Hn.
  destruct (Check_seq_counts l rawURL r w0 Hm nows st 0 Hkey ltac:(lia) ltac:(lia)
              ltac:(rewrite Hn; reflexivity)) as (L1 & L2 & Hnth).
  split; [exact L1|]. split; [exact L2|].
  intros i now Hi. destruct (Hnth i now Hi) as [R E].
  replace (0 + Z.of_nat i + 1) with (Z.of_nat i + 1) in R, E by lia.
  cbv zeta. split.
  - intros Hle. rewrite R, E, (CheckProofs.apply_strategy_under l r _ _ Hle).
    split; reflexivity.
  - intros Hgt.
    destruct (CheckProofs.apply_strategy_over l r (window_of r now) _ Hgt) as [Ev Res].
    rewrite Res in R. rewrite Ev in E. cbn [window_of store.BucketStart store.Duration] in R.
    split; [exact E|]. split.
    + intros [EB|EB]; rewrite EB in R; exact R.
    + intros EL. rewrite EL in R. exact R.
Qed.

End Seq.

(** A TieredStore counts as its durable tier does. *)
Section TieredLift.

Context {P : Type} `{Store P}.
Variable pstored : P -> string -> option (Z * string).
Hypothesis Hp : forall key w st,
  below_max (pstored st key) w ->
  fst (Increment key w st) = (next_count (pstored st key) w, None)
  /\ pstored (snd (Increment key w st)) key = Some (next_count (pstored st key) w, BucketKey w).

Lemma tiered_increment_lift (key : string) (w : Window) (t : tiered.TieredStore P) :
  below_max (pstored (tiered.persistent t) key) w ->
  fst (Increment key w t) = (next_count (pstored (tiered.persistent t) key) w, None)
  /\ pstored (tiered.persistent (snd (Increment key w t))) key =
     Some (next_count (pstored (tiered.persistent t) key) w, BucketKey w).
Proof.
  intros Hb. pose proof (Hp key w (tiered.persistent t) Hb) as Hpt. revert Hpt.
  cbn [Increment tiered.TieredStore_Store]. unfold tiered.TieredStore_Increment.
  destruct (Increment key w (tiered.persistent t)) as [[c e] p'].
  cbn [fst snd]. intros [A B]. injection A as -> ->.
  destruct (MemoryStore_Increment key w (tiered.memory t)) as [x m'].
  cbn [fst snd tiered.persistent]. split; [reflexivity|exact B].
Qed.

End TieredLift.

End SeqProofs.

(** ** C1: sequential checks against a limit. *)
(** Claim C1 (amended): for a resource r that is the first registered
    resource whose pattern matches the URL, with limit L, and N sequential
    Check calls on that URL within a single bucket of r's window, starting
    from a fresh counter (none stored for the bucket), on the memory,
    SQLite or Redis store or a TieredStore over SQLite or Redis, with no
    store errors (a driver or client that fails no call; N fits in an
    int64): calls
    1..L return nil with no callback; every call past L invokes the
    limit-reached callback (when set) with its count, and returns a
    limit-exceeded error (carrying the bucket's reset instant) under Block
    or BlockWithQueue, nil under LogOnly. *)
Theorem Check_sequence_first_match
    (url_Parse : string -> option (string * string)) (l : Limiter) (rawURL : string)
    (r : Resource) (nows : list Time) (w0 : store.Window) :
  first_match url_Parse (resources l) rawURL = Some r ->
  (forall now, In now nows -> store.BucketKey (window_of r now) = store.BucketKey w0) ->
  Z.of_nat (length nows) <= max_int64 ->
  (forall m : store.MemoryStore, Views.next_count (Views.mem_stored m (Name r)) w0 = 1 ->
     CheckViews.sequence_outcome l r nows
       (fst (fst (Check_seq url_Parse l rawURL nows m))) (snd (Check_seq url_Parse l rawURL nows m)))
  /\ (forall db : store.SQLiteStore, Views.next_count (Views.sql_stored db (Name r)) w0 = 1 ->
     CheckViews.sequence_outcome l r nows
       (fst (fst (Check_seq url_Parse l rawURL nows db))) (snd (Check_seq url_Parse l rawURL nows db)))
  /\ (forall db : redis.RedisStore, Views.next_count (Views.redis_stored db (Name r)) w0 = 1 ->
     CheckViews.sequence_outcome l r nows
       (fst (fst (Check_seq url_Parse l rawURL nows db))) (snd (Check_seq url_Parse l rawURL nows db)))
  /\ (forall t : tiered.TieredStore store.SQLiteStore,
     Views.next_count (Views.sql_stored (tiered.persistent t) (Name r)) w0 = 1 ->
     CheckViews.sequence_outcome l r nows
       (fst (fst (Check_seq url_Parse l rawURL nows t))) (snd (Check_seq url_Parse l rawURL nows t)))
  /\ (forall t : tiered.TieredStore redis.RedisStore,
     Views.next_count (Views.redis_stored (tiered.persistent t) (Name r)) w0 = 1 ->
     CheckViews.sequence_outcome l r nows
       (fst (fst (Check_seq url_Parse l rawURL nows t))) (snd (Check_seq url_Parse l rawURL nows t))).
Proof.
  intros Hm Hkey Hlen. split; [|split; [|split; [|split]]]; intros st Hn.
  - exact (SeqProofs.Check_seq_outcome url_Parse Views.mem_stored
             IncrementProofs.mem_increment_stored l rawURL r w0 nows st Hm Hkey Hlen Hn).
  - exact (SeqProofs.Check_seq_outcome url_Parse Views.sql_stored
             IncrementProofs.sql_increment l rawURL r w0 nows st Hm Hkey Hlen Hn).
  - exact (SeqProofs.Check_seq_outcome url_Parse Views.redis_stored
             IncrementProofs.redis_increment l rawURL r w0 nows st Hm Hkey Hlen Hn).
  - exact (SeqProofs.Check_seq_outcome url_Parse
             (fun t k => Views.sql_stored (tiered.persistent t) k)
             (SeqProofs.tiered_increment_lift Views.sql_stored IncrementProofs.sql_increment)
             l rawURL r w0 nows st Hm Hkey Hlen Hn).
  - exact (SeqProofs.Check_seq_outcome url_Parse
             (fun t k => Views.redis_stored (tiered.persistent t) k)
             (SeqProofs.tiered_increment_lift Views.redis_stored IncrementProofs.redis_increment)
             l rawURL r w0 nows st Hm Hkey Hlen Hn).
Qed.

(** A Block resource with limit 2 and three checks at one instant, on the
    memory store. *)
Lemma Check_sequence_first_match_witness :
  let r := {| Name := "test-api"; Pattern := "api.test.com/*"; Limit := 2;
              Resource_Window := PerMinute; Resource_Strategy := Block |} in
  let l := {| resources := [r]; onLimitReached := true |} in
  let url := "https://api.test.com/v1/foo"%string in
  let t := 1705329000 * Second in
  let ms := (∅ : store.MemoryStore) in
  Views.next_count (Views.mem_stored ms (Name r)) (window_of r t) = 1
  /\ CheckViews.sequence_outcome l r [t; t; t]
       (fst (fst (Check_seq ExampleURL.parse l url [t; t; t] ms)))
       (snd (Check_seq ExampleURL.parse l url [t; t; t] ms)).
Proof.
  intros r l url t ms.
  assert (Hm : first_match ExampleURL.parse (resources l) url = Some r)
    by (vm_compute; reflexivity).
  assert (Hk : forall now, In now [t; t; t] ->
                 store.BucketKey (window_of r now) = store.BucketKey (window_of r t))
    by (intros now [<-|[<-|[<-|[]]]]; reflexivity).
  assert (Hl : Z.of_nat (length [t; t; t]) <= max_int64) by (vm_compute; discriminate).
  assert (Hn : Views.next_count (Views.mem_stored ms (Name r)) (window_of r t) = 1)
    by reflexivity.
  split; [exact Hn|].
  destruct (Check_sequence_first_match ExampleURL.parse l url r [t; t; t] (window_of r t)
              Hm Hk Hl) as [Hmem _].
  exact (Hmem ms Hn).
Defined.

(** ** C1: a resource shadowed by an earlier registered one. *)
(** Claim C1, counterexample: resource "b" (limit 1, Block) matches the
    URL, but a catch-all resource registered before it (limit 100) takes
    every check, so three sequential checks in one bucket are all
    allowed, although calls 2 and 3 are past b's limit. *)
Lemma Check_shadowed_resource_never_blocks :
  let a := {| Name := "all"; Pattern := "*"; Limit := 100;
              Resource_Window := PerMinute; Resource_Strategy := Block |} in
  let b := {| Name := "b"; Pattern := "api.test.com/*"; Limit := 1;
              Resource_Window := PerMinute; Resource_Strategy := Block |} in
  let l := {| resources := [a; b]; onLimitReached := false |} in
  let url := "https://api.test.com/x"%string in
  let t := 1705329000 * Second in
  In b (resources l)
  /\ matchURL ExampleURL.parse url (Pattern b) = true
  /\ Limit b = 1 /\ Resource_Strategy b = Block
  /\ fst (fst (Check_seq ExampleURL.parse l url [t; t; t] (∅ : store.MemoryStore)))
     = [None; None; None].
Proof.
  intros a b l url t.
  split; [right; left; reflexivity|].
  split; [vm_compute; reflexivity|].
  split; [reflexivity|]. split; [reflexivity|].
  vm_compute. reflexivity.
Qed.


(* ===================================================================== *)
(** ** Window buckets *)

Module WindowProofs.

Lemma Day_ns_val : Day_ns = 86400000000000.
Proof. reflexivity. Qed.

(** time.Date on the civil fields of t, at hour h and minute mi. *)
Lemma Date_of_civil (t h mi : Time) :
  Date (Year t) (Month t) (DayOf t) h mi 0 0 = days_of t * Day_ns + h * Hour + mi * Minute.
Proof.
  destruct (civil_of_time t) as (Hm & _ & Hdays).
  unfold Date.
  rewrite (Z.div_small (Month t - 1) 12) by lia.
  rewrite (Z.mod_small (Month t - 1) 12) by lia.
  replace (Year t + 0) with (Year t) by ring.
  replace (Month t - 1 + 1) with (Month t) by ring.
  rewrite Calendar.days_from_civil_day in Hdays.
  replace (days_from_civil (Year t) (Month t) 1 + DayOf t - 1) with (days_of t) by lia.
  unfold Time. ring.
Qed.

Lemma mod_mul_div (t a b : Z) : 0 < a -> 0 < b -> (t mod (a * b)) / a = (t / a) mod b.
Proof.
  intros Ha Hb. rewrite Z.rem_mul_r by lia.
  rewrite Z.mul_comm, Z.div_add by lia.
  rewrite Z.div_small by (apply Z.mod_pos_bound; lia). ring.
Qed.

(** The civil fields the layouts read, as functions of t / d for a unit d
    that divides the field. *)
Lemma days_of_div (t d k : Z) : 0 < d -> d * k = Day_ns -> days_of t = (t / d) / k.
Proof.
  intros Hd Hk. unfold days_of. rewrite <- Hk, Z.div_div; [reflexivity|lia|].
  assert (0 < Day_ns) by (rewrite Day_ns_val; lia). nia.
Qed.

Lemma HourOf_min (t : Time) : HourOf t = ((t / Minute) mod 1440) / 60.
Proof.
  unfold HourOf, ns_of_day.
  replace Day_ns with (Minute * 1440) by reflexivity.
  rewrite <- mod_mul_div by (unfold Minute, Second; lia).
  replace Hour with (Minute * 60) by reflexivity.
  rewrite <- Z.div_div by (unfold Minute, Second; lia). reflexivity.
Qed.

Lemma HourOf_hour (t : Time) : HourOf t = (t / Hour) mod 24.
Proof.
  unfold HourOf, ns_of_day.
  replace Day_ns with (Hour * 24) by reflexivity.
  apply mod_mul_div; unfold Hour, Minute, Second; lia.
Qed.

Lemma MinuteOf_min (t : Time) : MinuteOf t = (t / Minute) mod 60.
Proof.
  unfold MinuteOf, ns_of_day.
  replace Day_ns with (Minute * 1440) by reflexivity.
  rewrite mod_mul_div by (unfold Minute, Second; lia).
  replace 1440 with (60 * 24) by reflexivity.
  rewrite Z.rem_mul_r by lia.
  rewrite Z.mul_comm, Z.mod_add by lia. apply Z.mod_mod. lia.
Qed.

Lemma div_of_day (t u k : Z) :
  0 < u -> u * k = Day_ns -> t / u = days_of t * k + ns_of_day t / u.
Proof.
  intros Hu Hk. unfold days_of, ns_of_day.
  rewrite (Z.div_mod t Day_ns) at 1 by (rewrite Day_ns_val; lia).
  rewrite <- Hk at 1.
  replace (u * k * (t / Day_ns) + t mod Day_ns) with (t / Day_ns * k * u + t mod Day_ns) by ring.
  rewrite Z.div_add_l by lia. reflexivity.
Qed.

(** The bucket start of every window but PerMonth is t rounded down to a
    multiple of the window's duration. *)
Lemma BucketStart_floor (w : Window) (t : Time) :
  w <> PerMonth -> Window_BucketStart w t = Window_Duration w * (t / Window_Duration w).
Proof.
  intros Hw.
  unfold Window_BucketStart, Window_Duration.
  destruct (Z.eqb_spec w PerMinute) as [->|H0];
  [|destruct (Z.eqb_spec w PerHour) as [->|H1];
  [|destruct (Z.eqb_spec w PerDay) as [->|H2];
  [|destruct (Z.eqb_spec w PerMonth) as [->|H3]; [congruence|]]]];
  rewrite Date_of_civil.
  - (* PerMinute: hour and minute of the day *)
    unfold HourOf, MinuteOf.
    set (x := ns_of_day t / Minute).
    replace (ns_of_day t / Hour) with (x / 60)
      by (unfold x; replace Hour with (Minute * 60) by reflexivity;
          rewrite Z.div_div by (unfold Minute, Second; lia); reflexivity).
    rewrite Z.mod_eq by lia.
    replace (days_of t * Day_ns + x / 60 * Hour + (x - 60 * (x / 60)) * Minute)
      with (Minute * (days_of t * 1440 + x)) by (unfold Day_ns, Hour; ring).
    f_equal. rewrite (div_of_day t Minute 1440) by reflexivity.
    unfold x. ring.
  - (* PerHour *)
    unfold HourOf.
    replace (days_of t * Day_ns + ns_of_day t / Hour * Hour + 0 * Minute)
      with (Hour * (days_of t * 24 + ns_of_day t / Hour)) by (unfold Day_ns; ring).
    f_equal. rewrite (div_of_day t Hour 24) by reflexivity. ring.
  - (* PerDay *)
    replace (days_of t * Day_ns + 0 * Hour + 0 * Minute) with (24 * Hour * days_of t)
      by (unfold Day_ns; ring).
    reflexivity.
  - (* any other value: as PerHour *)
    unfold HourOf.
    replace (days_of t * Day_ns + ns_of_day t / Hour * Hour + 0 * Minute)
      with (Hour * (days_of t * 24 + ns_of_day t / Hour)) by (unfold Day_ns; ring).
    f_equal. rewrite (div_of_day t Hour 24) by reflexivity. ring.
Qed.

(** The bucket key of every window but PerMonth depends on t only through
    t / duration. *)
Lemma BucketKey_of_div (w : Window) (t t' : Time) :
  w <> PerMonth -> t / Window_Duration w = t' / Window_Duration w ->
  Window_BucketKey w t = Window_BucketKey w t'.
Proof.
  intros Hw Ht.
  assert (Hfields : forall d k, 0 < d -> d * k = Day_ns -> t / d = t' / d ->
            Year t = Year t' /\ Month t = Month t' /\ DayOf t = DayOf t').
  { intros d k Hd Hk E. unfold Year, Month, DayOf.
    rewrite (days_of_div t d k Hd Hk), (days_of_div t' d k Hd Hk), E. auto. }
  unfold Window_BucketKey, Window_Duration in *.
  destruct (Z.eqb_spec w PerMinute) as [->|H0];
  [|destruct (Z.eqb_spec w PerHour) as [->|H1];
  [|destruct (Z.eqb_spec w PerDay) as [->|H2];
  [|destruct (Z.eqb_spec w PerMonth) as [->|H3]; [congruence|]]]].
  - destruct (Hfields Minute 1440 ltac:(reflexivity) ltac:(reflexivity) Ht) as (Y & M & D).
    unfold Format_2006_01_02T15_04, Format_2006_01_02T15, Format_2006_01_02, Format_2006_01.
    rewrite Y, M, D, (HourOf_min t), (HourOf_min t'), (MinuteOf_min t), (MinuteOf_min t'), Ht.
    reflexivity.
  - destruct (Hfields Hour 24 ltac:(reflexivity) ltac:(reflexivity) Ht) as (Y & M & D).
    unfold Format_2006_01_02T15, Format_2006_01_02, Format_2006_01.
    rewrite Y, M, D, (HourOf_hour t), (HourOf_hour t'), Ht. reflexivity.
  - destruct (Hfields (24 * Hour) 1 ltac:(reflexivity) ltac:(reflexivity) Ht) as (Y & M & D).
    unfold Format_2006_01_02, Format_2006_01.
    rewrite Y, M, D. reflexivity.
  - destruct (Hfields Hour 24 ltac:(reflexivity) ltac:(reflexivity) Ht) as (Y & M & D).
    unfold Format_2006_01_02T15, Format_2006_01_02, Format_2006_01.
    rewrite Y, M, D, (HourOf_hour t), (HourOf_hour t'), Ht. reflexivity.
Qed.

Lemma Duration_pos (w : Window) : 0 < Window_Duration w.
Proof.
  unfold Window_Duration.
  repeat match goal with |- context [if ?c then _ else _] => destruct c end; reflexivity.
Qed.

End WindowProofs.

(** ** Window buckets partition time *)
(** Every window but PerMonth (PerMinute, PerHour, PerDay, and any other
    Window value, which acts as PerHour) starts its bucket at t rounded
    down to a multiple of its duration since the Unix epoch, so the
    bucket [start, start + duration) contains t. *)
Theorem Window_BucketStart_floor (w : Window) (t : Time) :
  w <> PerMonth ->
  Window_BucketStart w t = Window_Duration w * (t / Window_Duration w)
  /\ Window_BucketStart w t <= t < Add (Window_BucketStart w t) (Window_Duration w).
Proof.
  intros Hw. pose proof (WindowProofs.Duration_pos w) as Hd.
  rewrite (WindowProofs.BucketStart_floor w t Hw). split; [reflexivity|].
  unfold Add. pose proof (Z.mul_div_le t (Window_Duration w) Hd).
  pose proof (Z.mul_succ_div_gt t (Window_Duration w) Hd). unfold Time. lia.
Qed.

Lemma Window_BucketStart_floor_witness :
  (PerHour <> PerMonth) /\
  Window_BucketStart PerHour (1705329000 * Second) = 1705327200 * Second
  /\ 1705327200 * Second <= 1705329000 * Second < Add (1705327200 * Second) Hour.
Proof.
  split; [discriminate|].
  destruct (Window_BucketStart_floor PerHour (1705329000 * Second) ltac:(discriminate))
    as [E B].
  assert (Hs : Window_BucketStart PerHour (1705329000 * Second) = 1705327200 * Second)
    by (rewrite E; reflexivity).
  split; [exact Hs|]. rewrite Hs in B. exact B.
Defined.

(** For every window but PerMonth, every instant of a bucket
    [start, start + duration) has that bucket's start and bucket key, so
    Check calls made within it count against one counter. *)
Theorem Window_bucket_same_key (w : Window) (t t' : Time) :
  w <> PerMonth ->
  Window_BucketStart w t <= t' < Add (Window_BucketStart w t) (Window_Duration w) ->
  Window_BucketStart w t' = Window_BucketStart w t
  /\ Window_BucketKey w t' = Window_BucketKey w t.
Proof.
  intros Hw Ht. pose proof (WindowProofs.Duration_pos w) as Hd.
  rewrite (WindowProofs.BucketStart_floor w t Hw) in Ht. unfold Add in Ht.
  assert (Hq : t' / Window_Duration w = t / Window_Duration w).
  { symmetry. apply (Z.div_unique_pos t' (Window_Duration w) (t / Window_Duration w)
                      (t' - Window_Duration w * (t / Window_Duration w))); lia. }
  split.
  - rewrite !(WindowProofs.BucketStart_floor w _ Hw), Hq. reflexivity.
  - apply WindowProofs.BucketKey_of_div; assumption.
Qed.

Lemma Window_bucket_same_key_witness :
  Window_BucketKey PerMinute (1705329059 * Second) =
  Window_BucketKey PerMinute (1705329000 * Second).
Proof.
  apply (Window_bucket_same_key PerMinute (1705329000 * Second) (1705329059 * Second)).
  - discriminate.
  - vm_compute. split; [intro H; discriminate H|reflexivity].
Defined.

(** For every window, PerMonth included, the bucket start lies in its own
    bucket: its bucket key is the key of t. *)
Theorem Window_BucketKey_of_BucketStart (w : Window) (t : Time) :
  Window_BucketKey w (Window_BucketStart w t) = Window_BucketKey w t.
Proof.
  destruct (Z.eq_dec w PerMonth) as [->|Hw].
  - destruct (civil_of_time t) as (Hm & _ & _).
    assert (Hdiv : days_of (Window_BucketStart PerMonth t) =
                   days_from_civil (Year t) (Month t) 1).
    { rewrite BucketStart_PerMonth_eq. unfold days_of.
      apply Z.div_mul. rewrite WindowProofs.Day_ns_val. lia. }
    assert (Hfirst := Calendar.first_of_month (Year t) (Month t) Hm).
    assert (K : forall x, Window_BucketKey PerMonth x = Format_2006_01 x) by reflexivity.
    rewrite !K. unfold Format_2006_01, Year at 1, Month at 1. rewrite Hdiv, Hfirst.
    reflexivity.
  - apply WindowProofs.BucketKey_of_div; [exact Hw|].
    rewrite (WindowProofs.BucketStart_floor w t Hw).
    pose proof (WindowProofs.Duration_pos w).
    rewrite Z.mul_comm, Z.div_mul by lia. reflexivity.
Qed.

(* ===================================================================== *)
(** ** Glob matching: patterns without a star, prefixes, trailing slashes *)

Module MatcherMore.

Lemma append_cons (x : ascii) (a b : string) : (String x a ++ b)%string = String x (a ++ b).
Proof. reflexivity. Qed.

Lemma app_assoc_str (a b c : string) : ((a ++ b) ++ c)%string = (a ++ (b ++ c))%string.
Proof. induction a as [|x a IH]; [reflexivity|]. rewrite !append_cons. now rewrite IH. Qed.

Lemma TrimRightSlash_slash (p : string) :
  strings.TrimRightSlash (p ++ "/") = strings.TrimRightSlash p.
Proof.
  induction p as [|c p IH]; [reflexivity|].
  rewrite append_cons. cbn [strings.TrimRightSlash]. now rewrite IH.
Qed.

Lemma TrimRightSlash_last (s : string) (c : ascii) :
  c <> "/"%char -> strings.TrimRightSlash (s ++ String c EmptyString) = (s ++ String c EmptyString)%string.
Proof.
  intros Hc. induction s as [|a s IH].
  - change (strings.TrimRightSlash (String c EmptyString) = String c EmptyString).
    cbn. destruct (Ascii.eqb_spec c "/"); [congruence|reflexivity].
  - rewrite append_cons. cbn [strings.TrimRightSlash]. rewrite IH.
    destruct s; reflexivity.
Qed.

Lemma has_star_TrimRightSlash (s : string) :
  has_star (strings.TrimRightSlash s) = true -> has_star s = true.
Proof.
  induction s as [|c s IH]; [easy|]. cbn [strings.TrimRightSlash has_star].
  destruct (String.eqb _ _ && Ascii.eqb c "/")%bool; [discriminate|].
  cbn [has_star]. intros H. apply orb_true_iff in H as [H|H]; rewrite ?H; [reflexivity|].
  rewrite IH by exact H. apply orb_true_r.
Qed.

Lemma has_star_substring (n k : nat) (s : string) :
  has_star (String.substring n k s) = true -> has_star s = true.
Proof.
  revert n k. induction s as [|c s IH]; intros n k.
  - destruct n, k; discriminate.
  - destruct n as [|n].
    + destruct k as [|k]; [discriminate|]. cbn [String.substring has_star].
      intros H. apply orb_true_iff in H as [H|H]; rewrite ?H; [reflexivity|].
      rewrite (IH 0%nat k H). apply orb_true_r.
    + cbn [String.substring has_star]. intros H. rewrite (IH n k H). apply orb_true_r.
Qed.

Lemma eqb_cons (c d : ascii) (s t : string) :
  String.eqb (String c s) (String d t) = (Ascii.eqb c d && String.eqb s t)%bool.
Proof.
  destruct (Ascii.eqb_spec c d) as [->|Hcd]; cbn [andb].
  - destruct (String.eqb_spec s t) as [->|Hst].
    + apply String.eqb_refl.
    + apply String.eqb_neq. congruence.
  - apply String.eqb_neq. congruence.
Qed.

Lemma loop_no_star (p v : string) :
  has_star p = false -> wildcardMatch_loop p v = String.eqb p v.
Proof.
  revert v. induction p as [|c p IH]; intros v Hp.
  - destruct v; reflexivity.
  - cbn [has_star] in Hp. apply orb_false_iff in Hp as [Hc Hp].
    cbn [wildcardMatch_loop]. rewrite Hc.
    destruct v as [|d v]; [reflexivity|].
    rewrite eqb_cons. destruct (Ascii.eqb c d); [apply IH, Hp|reflexivity].
Qed.

Lemma glob_no_star (p v : string) :
  has_star p = false -> globMatch p v = String.eqb p v.
Proof.
  intros Hp. unfold globMatch.
  destruct (String.eqb p v) eqn:E; [reflexivity|].
  assert (Hs : strings.HasSuffix p "/*" = false).
  { unfold strings.HasSuffix. cbn [String.length].
    destruct (String.eqb_spec (String.substring (String.length p - 2) 2 p) "/*") as [Es|];
      [|apply andb_false_r].
    exfalso. pose proof (has_star_substring (String.length p - 2) 2 p) as H.
    rewrite Es in H. rewrite (H eq_refl) in Hp. discriminate. }
  cbn [String.length]. rewrite Hs. cbn [andb].
  unfold wildcardMatch.
  destruct (String.eqb_spec p "*") as [->|]; [discriminate|].
  rewrite loop_no_star by exact Hp. exact E.
Qed.

Lemma substring_app_l (a b : string) : String.substring 0 (String.length a) (a ++ b) = a.
Proof.
  induction a as [|c a IH]; [destruct b; reflexivity|].
  rewrite append_cons. cbn [String.length String.substring]. now rewrite IH.
Qed.

Lemma substring_app_r (a b : string) (k : nat) :
  String.substring (String.length a) k (a ++ b) = String.substring 0 k b.
Proof. induction a as [|c a IH]; [reflexivity|]. exact IH. Qed.

Lemma glob_prefix (pre v : string) :
  (v = pre \/ strings.HasPrefix v (pre ++ "/") = true) -> globMatch (pre ++ "/*") v = true.
Proof.
  intros Hv. unfold globMatch.
  destruct (String.eqb _ _); [reflexivity|].
  assert (Hlen : String.length (pre ++ "/*") = (String.length pre + 2)%nat)
    by (rewrite Matcher.length_app; reflexivity).
  assert (Hs : strings.HasSuffix (pre ++ "/*") "/*" = true).
  { unfold strings.HasSuffix. rewrite Hlen. cbn [String.length].
    replace (String.length pre + 2 - 2)%nat with (String.length pre) by lia.
    rewrite substring_app_r. apply andb_true_iff. split; [apply Nat.leb_le; lia|reflexivity]. }
  assert (Ht : strings.TrimSuffix (pre ++ "/*") "/*" = pre).
  { unfold strings.TrimSuffix. rewrite Hs, Hlen. cbn [String.length].
    replace (String.length pre + 2 - 2)%nat with (String.length pre) by lia.
    apply substring_app_l. }
  rewrite Hs, Ht. cbn [andb].
  destruct Hv as [->|Hp]; [rewrite String.eqb_refl; reflexivity|].
  rewrite Hp, orb_true_r. reflexivity.
Qed.

End MatcherMore.

(** ** Patterns without a star match exactly *)
(** A pattern with no '*' matches a URL exactly when the URL parses and
    its host + path equals the pattern once trailing slashes are trimmed
    from both; a URL that does not parse matches no pattern. *)
Theorem matchURL_no_star_is_equality
    (url_Parse : string -> option (string * string)) (rawURL pattern : string) :
  has_star pattern = false ->
  matchURL url_Parse rawURL pattern =
  match url_Parse rawURL with
  | None => false
  | Some (host, path) =>
      String.eqb (strings.TrimRightSlash pattern) (strings.TrimRightSlash (host ++ path))
  end.
Proof.
  intros Hp. unfold matchURL.
  destruct (url_Parse rawURL) as [[host path]|]; [|reflexivity].
  apply MatcherMore.glob_no_star.
  destruct (has_star (strings.TrimRightSlash pattern)) eqn:E; [|reflexivity].
  rewrite (MatcherMore.has_star_TrimRightSlash _ E) in Hp. exact Hp.
Qed.

Lemma matchURL_no_star_is_equality_witness :
  has_star "api.example.com/v1/specific" = false /\
  matchURL ExampleURL.parse "https://api.example.com/v1/other" "api.example.com/v1/specific"
  = false.
Proof.
  split; [reflexivity|].
  rewrite (matchURL_no_star_is_equality ExampleURL.parse "https://api.example.com/v1/other"
             "api.example.com/v1/specific" eq_refl).
  vm_compute. reflexivity.
Defined.

(** ** The pattern "*" and trailing slashes *)
(** The pattern "*" matches every URL that url.Parse accepts and no other;
    a trailing slash on a pattern never changes what it matches. *)
Theorem matchURL_star_and_trailing_slash
    (url_Parse : string -> option (string * string)) (rawURL pattern : string) :
  matchURL url_Parse rawURL "*" =
    match url_Parse rawURL with None => false | Some _ => true end
  /\ matchURL url_Parse rawURL (pattern ++ "/") = matchURL url_Parse rawURL pattern.
Proof.
  unfold matchURL. split.
  - destruct (url_Parse rawURL) as [[host path]|]; [|reflexivity].
    cbn [strings.TrimRightSlash String.eqb Ascii.eqb andb Bool.eqb].
    unfold globMatch. destruct (String.eqb _ _); [reflexivity|]. reflexivity.
  - destruct (url_Parse rawURL) as [[host path]|]; [|reflexivity].
    rewrite MatcherMore.TrimRightSlash_slash. reflexivity.
Qed.

(** ** Prefix patterns *)
(** A pattern pre/* matches every URL whose host + path, trailing slashes
    trimmed, is pre itself or starts with pre/ (query strings play no
    part). *)
Theorem matchURL_prefix_pattern
    (url_Parse : string -> option (string * string)) (rawURL pre host path : string) :
  url_Parse rawURL = Some (host, path) ->
  (strings.TrimRightSlash (host ++ path) = pre
   \/ strings.HasPrefix (strings.TrimRightSlash (host ++ path)) (pre ++ "/") = true) ->
  matchURL url_Parse rawURL (pre ++ "/*") = true.
Proof.
  intros Hu Hv. unfold matchURL. rewrite Hu.
  replace (pre ++ "/*")%string with ((pre ++ "/") ++ String "*" EmptyString)%string
    by apply MatcherMore.app_assoc_str.
  rewrite MatcherMore.TrimRightSlash_last by discriminate.
  rewrite MatcherMore.app_assoc_str. apply MatcherMore.glob_prefix. exact Hv.
Qed.

Lemma matchURL_prefix_pattern_witness :
  matchURL ExampleURL.parse "https://api.stripe.com" ("api.stripe.com" ++ "/*") = true.
Proof.
  apply (matchURL_prefix_pattern ExampleURL.parse "https://api.stripe.com" "api.stripe.com"
           "api.stripe.com" "").
  - vm_compute. reflexivity.
  - left. vm_compute. reflexivity.
Defined.

(* ===================================================================== *)
(** ** More on the stores: round trips, Reset, other keys, overflow *)

Module StoreMore.

Import store Views.

Lemma mem_increment_stores (key : string) (w : Window) (m : MemoryStore) :
  mem_stored (snd (MemoryStore_Increment key w m)) key =
  Some (fst (fst (MemoryStore_Increment key w m)), BucketKey w).
Proof.
  unfold MemoryStore_Increment, mem_stored. cbn [fst snd].
  rewrite lookup_insert_eq. cbn [count bucketKey].
  destruct (m !! key) as [b|]; [|reflexivity].
  destruct (String.eqb_spec (bucketKey b) (BucketKey w)) as [E|E]; [|reflexivity].
  cbn [bucketKey]. rewrite E. reflexivity.
Qed.

Lemma read_count_same (c : Z) (w : Window) : read_count (Some (c, BucketKey w)) w = c.
Proof. cbn. rewrite String.eqb_refl. reflexivity. Qed.

Lemma redisKey_inj (a b : string) : redis.redisKey a = redis.redisKey b -> a = b.
Proof. unfold redis.redisKey. intros H. injection H. auto. Qed.

(** Increment and Reset of a key leave the entry of every other key as it was. *)
Lemma mem_frame (key k : string) (w : Window) (m : MemoryStore) :
  k <> key ->
  mem_stored (snd (MemoryStore_Increment key w m)) k = mem_stored m k
  /\ mem_stored (snd (MemoryStore_Reset key m)) k = mem_stored m k.
Proof.
  intros Hk. unfold MemoryStore_Increment, MemoryStore_Reset, mem_stored. cbn [snd].
  rewrite lookup_insert_ne, lookup_delete_ne by congruence. auto.
Qed.

Lemma sql_frame (key k : string) (w : Window) (db : SQLiteStore) :
  k <> key ->
  sql_stored (snd (Increment key w db)) k = sql_stored db k
  /\ sql_stored (snd (Reset key db)) k = sql_stored db k.
Proof.
  intros Hk. rewrite Reliable.sql_Increment_table, Reliable.sql_Reset_table.
  unfold sql_stored. cbn [snd].
  rewrite lookup_delete_ne by congruence. split; [|reflexivity].
  destruct (db !! key); cbn [snd]; rewrite lookup_insert_ne by congruence; reflexivity.
Qed.

Lemma redis_frame (key k : string) (w : Window) (db : redis.RedisStore) :
  k <> key ->
  redis_stored (snd (Increment key w db)) k = redis_stored db k
  /\ redis_stored (snd (Reset key db)) k = redis_stored db k.
Proof.
  intros Hk. assert (Hr : redis.redisKey key <> redis.redisKey k)
    by (intros E; apply Hk; symmetry; apply redisKey_inj, E).
  rewrite Reliable.redis_Increment_db, Reliable.redis_Reset_db. unfold redis_stored.
  cbn [snd]. rewrite lookup_delete_ne by exact Hr. split; [|reflexivity].
  unfold redis.incrementScript.
  destruct (db !! redis.redisKey key) as [h|] eqn:Eh; cbn [negb].
  - destruct (String.eqb (redis.h_bucket_key h) (BucketKey w)); cbn [negb].
    + destruct (Reliable.hincrby_cases h) as [[_ ->]|[_ [h' [-> _]]]]; cbn [snd];
        [reflexivity|rewrite lookup_insert_ne by exact Hr; reflexivity].
    + cbn [snd]. rewrite lookup_insert_ne by exact Hr. reflexivity.
  - cbn [snd]. rewrite lookup_insert_ne by exact Hr. reflexivity.
Qed.

End StoreMore.

(* ===================================================================== *)
(** ** The SQLite and Redis stores over any driver or client *)

Module ConnProofs.

Import store Views.

(** Split on the answer of the next driver call named in a hypothesis. *)
Ltac driver_cases H :=
  repeat match type of H with
  | context [driver_call ?d] =>
      let e := fresh "e" in let d' := fresh "d" in
      let E := fresh "Ed" in
      destruct (driver_call d) as [[e|] d'] eqn:E;
      cbv beta iota zeta delta [fst snd] in H; try discriminate H
  | context [match ?t !! ?k with _ => _ end] =>
      let r := fresh "r" in destruct (t !! k) as [r|]; try discriminate H
  end.

Lemma sql_get_conn (key : string) (w : Window) (c : SQLiteConn) :
  Get key w c =
  match driver_call (conn_driver c) with
  | (Some e, d) => ((0, Some e), {| conn_table := conn_table c; conn_driver := d |})
  | (None, d) => ((read_count (sql_stored (conn_table c) key) w, None),
                  {| conn_table := conn_table c; conn_driver := d |})
  end.
Proof.
  cbn [Get SQLiteConn_Store]. unfold SQLiteStore_Get, sql_stored, read_count.
  destruct (driver_call (conn_driver c)) as [[e|] d]; [reflexivity|].
  destruct (conn_table c !! key) as [r|]; [destruct (String.eqb _ _)|]; reflexivity.
Qed.

Lemma sql_increment_conn_ok (key : string) (w : Window) (c c' : SQLiteConn) n :
  Increment key w c = ((n, None), c') ->
  sql_stored (conn_table c') key = Some (n, BucketKey w).
Proof.
  cbn [Increment SQLiteConn_Store]. unfold SQLiteStore_Increment. intros H.
  driver_cases H; injection H as <- <-; cbn [conn_table]; unfold sql_stored;
    rewrite lookup_insert_eq; reflexivity.
Qed.

Lemma driver_call_err (d d' : driver) (e : error) :
  driver_call d = (Some e, d') -> exists msg, e = BackendError msg.
Proof.
  destruct d as [|[msg|] d]; cbn; intros H; [discriminate|..|discriminate].
  injection H as <- _. exists msg. reflexivity.
Qed.

(** A failed Increment reports a driver error and, the transaction rolled
    back, leaves the table as it was; only a failed Commit reports a
    count other than 0. *)
Lemma sql_increment_conn_err (key : string) (w : Window) (c c' : SQLiteConn) n e :
  Increment key w c = ((n, Some e), c') ->
  (exists msg, e = BackendError msg) /\ conn_table c' = conn_table c.
Proof.
  cbn [Increment SQLiteConn_Store]. unfold SQLiteStore_Increment. intros H.
  driver_cases H; injection H as _ <- <-;
    (split; [eapply driver_call_err; eassumption|reflexivity]).
Qed.

Lemma sql_reset_conn_ok (key : string) (c c1 : SQLiteConn) :
  Reset key c = (None, c1) -> conn_table c1 !! key = None.
Proof.
  cbn [Reset SQLiteConn_Store]. unfold SQLiteStore_Reset. intros H.
  driver_cases H. injection H as <-. cbn [conn_table]. apply lookup_delete_eq.
Qed.

Lemma sql_fresh_get (key : string) (w : Window) (c : SQLiteConn) :
  conn_table c !! key = None -> fst (fst (Get key w c)) = 0.
Proof.
  intros Hk. rewrite sql_get_conn. unfold sql_stored. rewrite Hk.
  destruct (driver_call (conn_driver c)) as [[e|] d]; reflexivity.
Qed.

Lemma sql_fresh_increment (key : string) (w : Window) (c : SQLiteConn) n :
  conn_table c !! key = None -> fst (Increment key w c) = (n, None) -> n = 1.
Proof.
  intros Hk. cbn [Increment SQLiteConn_Store]. unfold SQLiteStore_Increment.
  intros H. cbv beta zeta in H. rewrite Hk in H.
  driver_cases H. congruence.
Qed.

Lemma redis_get_conn (key : string) (w : Window) (c : redis.RedisConn) :
  Get key w c =
  match redis.client_call (redis.conn_client c) with
  | (redis.Delivered, cl) =>
      ((read_count (redis_stored (redis.conn_db c) key) w, None),
       {| redis.conn_db := redis.conn_db c; redis.conn_client := cl |})
  | (redis.FailedBefore msg, cl) | (redis.FailedAfter msg, cl) =>
      ((0, Some (Errorf "erl/store/redis: get: %w" (BackendError msg))),
       {| redis.conn_db := redis.conn_db c; redis.conn_client := cl |})
  end.
Proof.
  cbn [Get redis.RedisConn_Store]. unfold redis.RedisStore_Get, redis_stored, read_count.
  destruct (redis.client_call (redis.conn_client c)) as [[|msg|msg] cl]; try reflexivity.
  destruct (redis.conn_db c !! redis.redisKey key) as [h|]; [|reflexivity].
  destruct (String.eqb _ _); [|reflexivity].
  cbv beta iota zeta. unfold redis.ParseInt. rewrite (redis.h_count_int64 h). reflexivity.
Qed.

Lemma redis_increment_conn_ok (key : string) (w : Window) (c c' : redis.RedisConn) n :
  Increment key w c = ((n, None), c') ->
  redis_stored (redis.conn_db c') key = Some (n, BucketKey w).
Proof.
  cbn [Increment redis.RedisConn_Store]. unfold redis.RedisStore_Increment.
  destruct (redis.client_call (redis.conn_client c)) as [[|msg|msg] cl];
    cbv beta iota zeta; [|discriminate|].
  - destruct (redis.incrementScript _ _ _ _) as [[r|msg] db'] eqn:Es; [|discriminate].
    intros [= <- <-]. cbn [redis.conn_db].
    apply (GetProofs.redis_increment_stores key w (redis.conn_db c) r db').
    rewrite Reliable.redis_Increment_db, Es. reflexivity.
  - destruct (redis.incrementScript _ _ _ _). discriminate.
Qed.

Lemma redis_increment_conn_err (key : string) (w : Window) (c c' : redis.RedisConn) n e :
  Increment key w c = ((n, Some e), c') ->
  n = 0 /\ exists msg, e = Errorf "erl/store/redis: increment: %w" (BackendError msg).
Proof.
  cbn [Increment redis.RedisConn_Store]. unfold redis.RedisStore_Increment.
  destruct (redis.client_call (redis.conn_client c)) as [[|msg|msg] cl];
    cbv beta iota zeta.
  - destruct (redis.incrementScript _ _ _ _) as [[r|msg] db']; [discriminate|].
    intros [= <- <- _]. split; [reflexivity|]. exists msg. reflexivity.
  - intros [= <- <- _]. split; [reflexivity|]. exists msg. reflexivity.
  - destruct (redis.incrementScript _ _ _ _).
    intros [= <- <- _]. split; [reflexivity|]. exists msg. reflexivity.
Qed.

Lemma redis_reset_conn_ok (key : string) (c c1 : redis.RedisConn) :
  Reset key c = (None, c1) -> redis_stored (redis.conn_db c1) key = None.
Proof.
  cbn [Reset redis.RedisConn_Store]. unfold redis.RedisStore_Reset.
  destruct (redis.client_call (redis.conn_client c)) as [[|msg|msg] cl];
    cbv beta iota zeta; [|discriminate|discriminate].
  intros [= <-]. unfold redis_stored. cbn [redis.conn_db]. rewrite lookup_delete_eq.
  reflexivity.
Qed.

Lemma redis_fresh_get (key : string) (w : Window) (c : redis.RedisConn) :
  redis_stored (redis.conn_db c) key = None -> fst (fst (Get key w c)) = 0.
Proof.
  intros Hk. rewrite redis_get_conn. rewrite Hk.
  destruct (redis.client_call (redis.conn_client c)) as [[|msg|msg] cl]; reflexivity.
Qed.

Lemma redis_fresh_increment (key : string) (w : Window) (c : redis.RedisConn) n :
  redis_stored (redis.conn_db c) key = None -> fst (Increment key w c) = (n, None) -> n = 1.
Proof.
  unfold redis_stored. intros Hk.
  cbn [Increment redis.RedisConn_Store]. unfold redis.RedisStore_Increment.
  destruct (redis.client_call (redis.conn_client c)) as [[|msg|msg] cl];
    cbv beta iota zeta.
  - unfold redis.incrementScript.
    destruct (redis.conn_db c !! redis.redisKey key); [discriminate|].
    cbn. congruence.
  - discriminate.
  - destruct (redis.incrementScript _ _ _ _). discriminate.
Qed.

(** What a TieredStore does after a successful Reset, given what its
    durable tier does. *)
Section TieredReset.

Context {P : Type} `{Store P}.
Variable fresh : P -> string -> Prop.
Hypothesis HR : forall key p p1, Reset key p = (None, p1) -> fresh p1 key.
Hypothesis HG : forall key w p, fresh p key -> fst (fst (Get key w p)) = 0.
Hypothesis HI : forall key w p n, fresh p key -> fst (Increment key w p) = (n, None) -> n = 1.

Lemma tiered_reset_fresh (key : string) (w : Window) (t t1 : tiered.TieredStore P) :
  Reset key t = (None, t1) ->
  fst (fst (Get key w t1)) = 0
  /\ forall n, fst (Increment key w t1) = (n, None) -> n = 1.
Proof.
  cbn [Reset tiered.TieredStore_Store]. unfold tiered.TieredStore_Reset, MemoryStore_Reset.
  destruct (Reset key (tiered.persistent t)) as [err p1] eqn:Er.
  intros [= -> <-]. pose proof (HR key _ _ Er) as Hf.
  split.
  - cbn [Get tiered.TieredStore_Store]. unfold tiered.TieredStore_Get.
    rewrite GetProofs.mem_get. cbn [tiered.memory tiered.persistent].
    unfold mem_stored at 1. rewrite lookup_delete_eq. cbn [read_count Z.gtb Z.compare].
    pose proof (HG key w p1 Hf) as Hg.
    destruct (Get key w p1) as [[c e] p2]. cbn in Hg. subst c.
    destruct e; reflexivity.
  - intros n. cbn [Increment tiered.TieredStore_Store]. unfold tiered.TieredStore_Increment.
    cbn [tiered.persistent tiered.memory].
    pose proof (HI key w p1) as Hi.
    destruct (Increment key w p1) as [[c e] p2]. destruct e as [e|]; [discriminate|].
    destruct (MemoryStore_Increment key w _). intros [= <-].
    exact (Hi c Hf eq_refl).
Qed.

End TieredReset.

End ConnProofs.

(* ===================================================================== *)
(** ** Concurrent Checks *)

Module ConcurrentProofs.

Import store Views Concurrent.

Lemma iota_S (n : nat) : iota (S n) = iota n ++ [Z.of_nat n + 1].
Proof. unfold iota. rewrite seq_S, map_app. reflexivity. Qed.

Lemma filter_le_iota (L : Z) (n : nat) :
  length (List.filter (fun c => c <=? L) (iota n)) = Nat.min n (Z.to_nat L).
Proof.
  induction n as [|n IH]; [reflexivity|].
  rewrite iota_S, List.filter_app, length_app, IH. cbn [List.filter].
  destruct (Z.leb_spec (Z.of_nat n + 1) L); cbn [length]; lia.
Qed.

Lemma Permutation_filter_length {A : Type} (f : A -> bool) (xs ys : list A) :
  Permutation xs ys -> length (List.filter f xs) = length (List.filter f ys).
Proof.
  induction 1 as [|x xs ys _ IH|x y xs|xs ys zs _ IH1 _ IH2]; cbn [List.filter].
  - reflexivity.
  - destruct (f x); cbn [length]; lia.
  - destruct (f x), (f y); cbn [length]; lia.
  - lia.
Qed.

(** A successful SQLite Increment did on the table what the bare store
    does. *)
Lemma sql_increment_conn_table (key : string) (w : Window) (c c' : SQLiteConn) n :
  Increment key w c = ((n, None), c') ->
  Increment key w (conn_table c) = ((n, None), conn_table c').
Proof.
  rewrite Reliable.sql_Increment_table.
  cbn [Increment SQLiteConn_Store]. unfold SQLiteStore_Increment.
  destruct (driver_call (conn_driver c)) as [[e|] d1]; cbv beta iota zeta; [intros [=]|].
  destruct (driver_call d1) as [[e|] d2]; cbv beta iota zeta; [intros [=]|].
  destruct (conn_table c !! key) as [r|].
  - destruct (driver_call d2) as [[e|] d3]; cbv beta iota zeta; [intros [=]|].
    destruct (driver_call d3) as [[e|] d4]; cbv beta iota zeta; [intros [=]|].
    intros [= <- <-]. reflexivity.
  - destruct (driver_call d2) as [[e|] d3]; cbv beta iota zeta; [intros [=]|].
    destruct (driver_call d3) as [[e|] d4]; cbv beta iota zeta; [intros [=]|].
    intros [= <- <-]. reflexivity.
Qed.

Lemma mem_increment_no_error (key : string) (w : Window) (m m' : MemoryStore) c e :
  Increment key w m = ((c, Some e), m') -> False.
Proof. cbn [Increment MemoryStore_Store]. unfold MemoryStore_Increment. intros [=]. Qed.

Lemma split_busy (ts : list goroutine) :
  forallb is_done ts = true \/ exists ts1 g ts2, ts = ts1 ++ g :: ts2 /\ is_done g = false.
Proof.
  induction ts as [|g ts IH]; [left; reflexivity|].
  cbn [forallb]. destruct (is_done g) eqn:Eg.
  - destruct IH as [IH|(ts1 & g' & ts2 & -> & Eg')]; [left; exact IH|].
    right. exists (g :: ts1), g', ts2. split; [reflexivity|exact Eg'].
  - right. exists [], g, ts. split; [reflexivity|exact Eg].
Qed.

Lemma seen_mid (ts1 : list goroutine) (g : goroutine) (ts2 : list goroutine) :
  flat_map seen_of (ts1 ++ g :: ts2) = flat_map seen_of ts1 ++ seen_of g ++ flat_map seen_of ts2.
Proof. rewrite flat_map_app. reflexivity. Qed.

Lemma seen_length (ts : list goroutine) : (length (flat_map seen_of ts) <= length ts)%nat.
Proof.
  induction ts as [|g ts IH]; [cbn; lia|].
  destruct g as [now|r now c|[c|] res]; cbn [flat_map seen_of app length]; lia.
Qed.

(** The weight of a goroutine: the stages it has left. *)
Local Abbreviation wg g := (match g with GPending _ => 2 | GCounted _ _ _ => 1 | GDone _ _ => 0 end)%nat.
Local Abbreviation wt ts := (list_sum (map (fun g => wg g) ts)).

Lemma wt_mid (ts1 : list goroutine) (g : goroutine) (ts2 : list goroutine) :
  wt (ts1 ++ g :: ts2) = (wt ts1 + wg g + wt ts2)%nat.
Proof.
  rewrite map_app, list_sum_app. cbn [map].
  change (list_sum (?a :: ?b)) with (a + list_sum b)%nat. lia.
Qed.

Section Run.

Variable url_Parse : string -> option (string * string).
Context {S : Type} `{Store S}.
Variable l : Limiter.
Variable rawURL : string.

Lemma step_store' ts1 ts2 now st evs lg g st' lg' :
  store_stage url_Parse l rawURL now st lg = (g, st', lg') ->
  step url_Parse l rawURL
    {| threads := ts1 ++ GPending now :: ts2; shared := st; events := evs; log := lg |}
    {| threads := ts1 ++ g :: ts2; shared := st'; events := evs; log := lg' |}.
Proof.
  intros E. pose proof (step_store url_Parse l rawURL ts1 ts2 now st evs lg) as Hs.
  rewrite E in Hs. exact Hs.
Qed.

Lemma step_finish' ts1 ts2 r now current st evs lg res evs' :
  apply_strategy l r (window_of r now) current = (res, evs') ->
  step url_Parse l rawURL
    {| threads := ts1 ++ GCounted r now current :: ts2; shared := st; events := evs; log := lg |}
    {| threads := ts1 ++ GDone (Some current) res :: ts2; shared := st;
       events := evs ++ evs'; log := lg |}.
Proof.
  intros E. pose proof (step_finish url_Parse l rawURL ts1 ts2 r now current st evs lg) as Hs.
  rewrite E in Hs. exact Hs.
Qed.

Lemma store_stage_shape now st lg g st' lg' :
  store_stage url_Parse l rawURL now st lg = (g, st', lg') -> (wg g <= 1)%nat.
Proof.
  unfold store_stage. destruct (first_match url_Parse (resources l) rawURL) as [r|].
  - destruct (Increment (Name r) (window_of r now) st) as [[c [e|]] st1];
      intros [= <- _ _]; lia.
  - intros [= <- _ _]. lia.
Qed.

(** Whatever the scheduler did so far, it can run every goroutine to its
    end. *)
Lemma progress_terminal (cfg : config S) :
  exists cfg', reachable url_Parse l rawURL cfg cfg' /\ terminal cfg'.
Proof.
  remember (wt (threads cfg)) as n eqn:En. revert cfg En.
  induction n as [n IH] using lt_wf_ind. intros [ts st evs lg] En. cbn [threads] in En.
  destruct (split_busy ts) as [Hall|(ts1 & g & ts2 & -> & Hg)].
  - exists {| threads := ts; shared := st; events := evs; log := lg |}.
    split; [apply rtc_refl|exact Hall].
  - rewrite wt_mid in En.
    destruct g as [now|r now c|seen res]; [| |discriminate Hg]; cbv beta iota in En.
    + destruct (store_stage url_Parse l rawURL now st lg) as [[g' st'] lg'] eqn:Es.
      pose proof (store_stage_shape _ _ _ _ _ _ Es) as Hw.
      destruct (IH (wt (ts1 ++ g' :: ts2)) ltac:(rewrite wt_mid; cbv beta iota; lia)
                  {| threads := ts1 ++ g' :: ts2; shared := st'; events := evs; log := lg' |}
                  eq_refl) as (cf & R & T).
      exists cf. split; [|exact T].
      eapply rtc_l; [apply step_store'; exact Es|exact R].
    + destruct (apply_strategy l r (window_of r now) c) as [res evs'] eqn:Ea.
      destruct (IH (wt (ts1 ++ GDone (Some c) res :: ts2)) ltac:(rewrite wt_mid; cbv beta iota; lia)
                  {| threads := ts1 ++ GDone (Some c) res :: ts2; shared := st;
                     events := evs ++ evs'; log := lg |}
                  eq_refl) as (cf & R & T).
      exists cf. split; [|exact T].
      eapply rtc_l; [apply step_finish'; exact Ea|exact R].
Qed.

(** The invariant of a run from a fresh counter, for a backend whose
    Increment is bucket-scoped counting when it succeeds and changes
    nothing when it fails. *)
Variable stored : S -> string -> option (Z * string).
Variable Fails : error -> Prop.
Hypothesis Hok : forall key w st c st',
  below_max (stored st key) w -> Increment key w st = ((c, None), st') ->
  c = next_count (stored st key) w /\ stored st' key = Some (c, BucketKey w).
Hypothesis Herr : forall key w st c e st',
  Increment key w st = ((c, Some e), st') -> Fails e /\ stored st' key = stored st key.

Variable r : Resource.
Variable w0 : Window.
Hypothesis Hm : first_match url_Parse (resources l) rawURL = Some r.
Hypothesis Hstrat : Resource_Strategy r = Block \/ Resource_Strategy r = BlockWithQueue.
Variable N : nat.
Hypothesis HN : Z.of_nat N <= max_int64.

Local Abbreviation thread_ok := (fun g => match g with
  | GPending now => BucketKey (window_of r now) = BucketKey w0
  | GCounted r' _ _ => r' = r
  | GDone (Some c) res => (res = None <-> c <= Limit r)
  | GDone None res => exists e, res = Some (Errorf "erl: store error: %w" e) /\ Fails e
  end).

Local Abbreviation inv cfg := (
  next_count (stored (shared cfg) (Name r)) w0 = Z.of_nat (length (log cfg)) + 1
  /\ log cfg = iota (length (log cfg))
  /\ Permutation (seen_counts cfg) (log cfg)
  /\ length (threads cfg) = N
  /\ Forall thread_ok (threads cfg)).

Lemma inv_step (cfg cfg' : config S) : step url_Parse l rawURL cfg cfg' -> inv cfg -> inv cfg'.
Proof.
  intros Hs. destruct Hs as [ts1 ts2 now st evs lg | ts1 ts2 r0 now c st evs lg];
    unfold seen_counts; cbn [threads shared log];
    intros (I1 & I2 & I3 & I4 & I5);
    apply List.Forall_app in I5; destruct I5 as [F1 F];
    apply List.Forall_cons_iff in F; destruct F as [Fg F2];
    rewrite length_app in I4; cbn [length] in I4;
    rewrite seen_mid in I3; cbn [seen_of app] in I3.
  - unfold store_stage. rewrite Hm.
    assert (Hn' : next_count (stored st (Name r)) (window_of r now) = Z.of_nat (length lg) + 1)
      by (rewrite (SeqProofs.next_count_same_key _ _ _ Fg); exact I1).
    destruct (Increment (Name r) (window_of r now) st) as [[c [e|]] st'] eqn:Ei.
    + destruct (Herr _ _ _ _ _ _ Ei) as [Hf Hst].
      cbv beta iota zeta. cbn [threads shared log]. rewrite Hst.
      split; [exact I1|]. split; [exact I2|].
      split; [rewrite seen_mid; exact I3|].
      split; [rewrite length_app; cbn [length]; exact I4|].
      apply List.Forall_app. split; [exact F1|]. constructor; [|exact F2].
      cbv beta iota. exists e. split; [reflexivity|exact Hf].
    + assert (Hb : below_max (stored st (Name r)) (window_of r now)).
      { apply (SeqProofs.below_max_of_next _ _ (Z.of_nat (length lg)) Hn').
        pose proof (Permutation_length I3) as Lp. rewrite length_app in Lp.
        pose proof (seen_length ts1). pose proof (seen_length ts2). lia. }
      destruct (Hok _ _ _ _ _ Hb Ei) as [Hc Hst]. rewrite Hn' in Hc. subst c.
      cbv beta iota zeta. cbn [threads shared log].
      split; [rewrite Hst; unfold next_count; rewrite Fg, String.eqb_refl, length_app;
              cbn [length]; lia|].
      split; [rewrite length_app; cbn [length]; rewrite Nat.add_1_r, iota_S, <- I2;
              reflexivity|].
      split.
      { rewrite seen_mid. cbn [seen_of app].
        exact (Permutation_trans (Permutation_trans (Permutation_sym (Permutation_middle _ _ _))
                                   (perm_skip _ I3)) (Permutation_cons_append _ _)). }
      split; [rewrite length_app; cbn [length]; exact I4|].
      apply List.Forall_app. split; [exact F1|]. constructor; [reflexivity|exact F2].
  - cbv beta iota in Fg. subst r0.
    destruct (apply_strategy l r (window_of r now) c) as [res evs'] eqn:Ea.
    cbv beta iota zeta. cbn [threads shared log].
    split; [exact I1|]. split; [exact I2|].
    split; [rewrite seen_mid; exact I3|].
    split; [rewrite length_app; cbn [length]; exact I4|].
    apply List.Forall_app. split; [exact F1|]. constructor; [|exact F2].
    cbv beta iota.
    destruct (Z_le_gt_dec c (Limit r)) as [Hle|Hgt].
    + rewrite (CheckProofs.apply_strategy_under l r _ _ Hle) in Ea. injection Ea as <- _.
      split; [intros _; exact Hle|reflexivity].
    + destruct (CheckProofs.apply_strategy_over l r (window_of r now) c Hgt) as [_ Hres].
      rewrite Ea in Hres. cbn [fst] in Hres.
      replace ((Resource_Strategy r =? Block) || (Resource_Strategy r =? BlockWithQueue))
        with true in Hres by (destruct Hstrat as [E|E]; rewrite E; reflexivity).
      subst res. split; [intros Hx; discriminate Hx|intros Hx; lia].
Qed.

Lemma inv_init (nows : list Time) (st : S) :
  length nows = N ->
  (forall now, In now nows -> BucketKey (window_of r now) = BucketKey w0) ->
  next_count (stored st (Name r)) w0 = 1 ->
  inv (init nows st).
Proof.
  intros Hl Hk Hn. unfold init, seen_counts. cbn [threads shared log length].
  split; [exact Hn|]. split; [reflexivity|].
  split.
  { replace (flat_map seen_of (map GPending nows)) with (@nil Z); [apply Permutation_refl|].
    clear. induction nows as [|x xs IH]; [reflexivity|exact IH]. }
  split; [rewrite length_map; exact Hl|].
  apply List.Forall_forall. intros g Hg. apply in_map_iff in Hg.
  destruct Hg as (now & <- & Hin). exact (Hk now Hin).
Qed.

Lemma inv_reach (cfg cfg' : config S) :
  reachable url_Parse l rawURL cfg cfg' -> inv cfg -> inv cfg'.
Proof.
  unfold reachable. induction 1 as [x|x y z Hxy _ IH]; intros Hi; [exact Hi|].
  apply IH, (inv_step _ _ Hxy), Hi.
Qed.

Lemma done_counts (ts : list goroutine) :
  forallb is_done ts = true -> Forall thread_ok ts ->
  length (List.filter is_allowed ts) =
    length (List.filter (fun c => c <=? Limit r) (flat_map seen_of ts))
  /\ (length (List.filter is_allowed ts) + length (List.filter is_denied ts) =
      length (flat_map seen_of ts))%nat
  /\ length ts = (length (flat_map seen_of ts) + length (List.filter is_failed ts))%nat.
Proof.
  induction ts as [|g ts IH]; [intros; cbn; repeat split|].
  cbn [forallb]. intros Hd Hf. apply andb_prop in Hd. destruct Hd as [Hg Hd].
  apply List.Forall_cons_iff in Hf. destruct Hf as [Hg' Hf].
  destruct (IH Hd Hf) as (A1 & A2 & A3).
  destruct g as [now|r0 now c|[c|] res]; [discriminate Hg|discriminate Hg| |].
  - cbv beta iota in Hg'. cbn [flat_map seen_of app List.filter is_allowed is_denied is_failed].
    destruct res as [e|].
    + assert (Hc : (c <=? Limit r) = false).
      { apply Z.leb_gt. destruct (Z_le_gt_dec c (Limit r)) as [Hle|Hgt]; [|lia].
        discriminate (proj2 Hg' Hle). }
      rewrite Hc. cbn [length]. lia.
    + assert (Hc : (c <=? Limit r) = true) by (apply Z.leb_le, Hg'; reflexivity).
      rewrite Hc. cbn [length]. lia.
  - cbv beta iota in Hg'. destruct Hg' as (e & -> & _).
    cbn [flat_map seen_of app List.filter is_allowed is_denied is_failed length]. lia.
Qed.

Lemma run_counts (nows : list Time) (st : S) :
  length nows = N ->
  (forall now, In now nows -> BucketKey (window_of r now) = BucketKey w0) ->
  next_count (stored st (Name r)) w0 = 1 ->
  (exists cfg, reachable url_Parse l rawURL (init nows st) cfg /\ terminal cfg)
  /\ forall cfg, reachable url_Parse l rawURL (init nows st) cfg ->
     log cfg = iota (length (log cfg))
     /\ (terminal cfg ->
         Permutation (seen_counts cfg) (log cfg)
         /\ allowed cfg = Nat.min (length (log cfg)) (Z.to_nat (Limit r))
         /\ denied cfg = (length (log cfg) - Nat.min (length (log cfg)) (Z.to_nat (Limit r)))%nat
         /\ failed cfg = (N - length (log cfg))%nat
         /\ (length (log cfg) <= N)%nat
         /\ Forall (fun g => match g with
                             | GDone None res =>
                                 exists e, res = Some (Errorf "erl: store error: %w" e) /\ Fails e
                             | _ => True
                             end) (threads cfg)).
Proof.
  intros Hl Hk Hn. split; [apply progress_terminal|].
  intros cfg R.
  destruct (inv_reach _ _ R (inv_init nows st Hl Hk Hn)) as (I1 & I2 & I3 & I4 & I5).
  split; [exact I2|]. intros T. unfold terminal in T.
  destruct (done_counts (threads cfg) T I5) as (A1 & A2 & A3).
  unfold seen_counts in I3.
  pose proof (Permutation_length I3) as Lp.
  split; [exact I3|].
  unfold allowed, denied, failed.
  assert (Ha : length (List.filter is_allowed (threads cfg)) =
               Nat.min (length (log cfg)) (Z.to_nat (Limit r))).
  { rewrite A1, (Permutation_filter_length _ _ _ I3). rewrite I2 at 1.
    apply filter_le_iota. }
  split; [exact Ha|]. split; [lia|]. split; [lia|].
  split; [pose proof (seen_length (threads cfg)); lia|].
  eapply List.Forall_impl; [|exact I5]. intros g Hg.
  destruct g as [now|r0 now c|[c|] res]; cbv beta iota; [exact I|exact I|exact I|exact Hg].
Qed.

End Run.

(** The two backends, as [run_counts] takes them. *)
Lemma mem_ok (key : string) (w : Window) (m : MemoryStore) c (m' : MemoryStore) :
  below_max (mem_stored m key) w -> Increment key w m = ((c, None), m') ->
  c = next_count (mem_stored m key) w /\ mem_stored m' key = Some (c, BucketKey w).
Proof.
  intros Hb Ei. destruct (IncrementProofs.mem_increment_stored key w m Hb) as [A B].
  change (Increment key w m) with (MemoryStore_Increment key w m) in Ei.
  rewrite Ei in A, B. cbn [fst snd] in A, B. injection A as A. subst c.
  split; [reflexivity|exact B].
Qed.

Lemma mem_err (key : string) (w : Window) (m : MemoryStore) c e (m' : MemoryStore) :
  Increment key w m = ((c, Some e), m') -> False /\ mem_stored m' key = mem_stored m key.
Proof. intros Ei. destruct (mem_increment_no_error key w m m' c e Ei). Qed.

Lemma sql_ok (key : string) (w : Window) (c : SQLiteConn) n (c' : SQLiteConn) :
  below_max (sql_stored (conn_table c) key) w -> Increment key w c = ((n, None), c') ->
  n = next_count (sql_stored (conn_table c) key) w
  /\ sql_stored (conn_table c') key = Some (n, BucketKey w).
Proof.
  intros Hb Ei. pose proof (sql_increment_conn_table key w c c' n Ei) as Et.
  destruct (IncrementProofs.sql_increment key w (conn_table c) Hb) as [A B].
  rewrite Et in A, B. cbn [fst snd] in A, B. injection A as A. subst n.
  split; [reflexivity|exact B].
Qed.

Lemma sql_err (key : string) (w : Window) (c : SQLiteConn) n e (c' : SQLiteConn) :
  Increment key w c = ((n, Some e), c') ->
  (exists msg, e = BackendError msg)
  /\ sql_stored (conn_table c') key = sql_stored (conn_table c) key.
Proof.
  intros Ei. destruct (ConnProofs.sql_increment_conn_err key w c c' n e Ei) as [He Ht].
  split; [exact He|rewrite Ht; reflexivity].
Qed.

Lemma no_failed (ts : list goroutine) :
  Forall (fun g => match g with
                   | GDone None res =>
                       exists e, res = Some (Errorf "erl: store error: %w" e) /\ False
                   | _ => True
                   end) ts ->
  length (List.filter is_failed ts) = 0%nat.
Proof.
  induction 1 as [|g ts Hg _ IH]; [reflexivity|].
  destruct g as [now|r now c|[c|] [e|]]; cbn [List.filter is_failed]; try exact IH.
  cbv beta iota in Hg. destruct Hg as (e' & _ & []).
Qed.

End ConcurrentProofs.










(** ** Get reads back what Increment wrote *)
(** On the memory store, Get in the same window right after
    Increment returns the count Increment returned, with no error and no
    change of state.  On the SQLite and Redis stores, after an Increment
    that returned count n and no error, Get in the same window makes one
    driver (client) call: when that call goes through it returns n with no
    error; when it fails it returns 0 with that error.  In both cases the
    table (the server's keys) stays as Increment left it. *)
Theorem Get_after_Increment (key : string) (w : store.Window) :
  (forall m : store.MemoryStore,
     store.Get key w (snd (store.Increment key w m)) =
     ((fst (fst (store.Increment key w m)), None), snd (store.Increment key w m)))
  /\ (forall (c c' : store.SQLiteConn) (n : Z),
     store.Increment key w c = ((n, None), c') ->
     store.Get key w c' =
     match store.driver_call (store.conn_driver c') with
     | (None, d) =>
         ((n, None), {| store.conn_table := store.conn_table c'; store.conn_driver := d |})
     | (Some e, d) =>
         ((0, Some e), {| store.conn_table := store.conn_table c'; store.conn_driver := d |})
     end)
  /\ (forall (c c' : redis.RedisConn) (n : Z),
     store.Increment key w c = ((n, None), c') ->
     store.Get key w c' =
     match redis.client_call (redis.conn_client c') with
     | (redis.Delivered, cl) =>
         ((n, None), {| redis.conn_db := redis.conn_db c'; redis.conn_client := cl |})
     | (redis.FailedBefore msg, cl) | (redis.FailedAfter msg, cl) =>
         ((0, Some (Errorf "erl/store/redis: get: %w" (BackendError msg))),
          {| redis.conn_db := redis.conn_db c'; redis.conn_client := cl |})
     end).
Proof.
  split; [|split].
  - intros m. cbn [store.Get store.Increment store.MemoryStore_Store].
    rewrite GetProofs.mem_get, StoreMore.mem_increment_stores, StoreMore.read_count_same.
    reflexivity.
  - intros c c' n Hi. rewrite ConnProofs.sql_get_conn.
    rewrite (ConnProofs.sql_increment_conn_ok key w c c' n Hi), StoreMore.read_count_same.
    reflexivity.
  - intros c c' n Hi. rewrite ConnProofs.redis_get_conn.
    rewrite (ConnProofs.redis_increment_conn_ok key w c c' n Hi), StoreMore.read_count_same.
    reflexivity.
Qed.

(** A SQLite connection whose driver does the Increment's four calls and
    then reports SQLITE_BUSY: Get after the Increment returns the error. *)
Lemma Get_after_Increment_witness :
  let w := {| store.Duration := Minute; store.BucketKey := "B"; store.BucketStart := 0 |} in
  let c := {| store.conn_table := ∅; store.conn_driver := [None; None; None; None;
                Some "database is locked (5) (SQLITE_BUSY)"%string] |} in
  store.Increment "k" w c = ((1, None), snd (store.Increment "k" w c))
  /\ fst (store.Get "k" w (snd (store.Increment "k" w c)))
     = (0, Some (BackendError "database is locked (5) (SQLITE_BUSY)")).
Proof.
  intros w c.
  assert (Hi : store.Increment "k" w c = ((1, None), snd (store.Increment "k" w c)))
    by (vm_compute; reflexivity).
  split; [exact Hi|].
  destruct (Get_after_Increment "k" w) as [_ [HS _]].
  rewrite (HS c (snd (store.Increment "k" w c)) 1 Hi). vm_compute. reflexivity.
Defined.



(** ** Operations on one key never touch another *)
(** On the memory, SQLite and Redis stores, Increment and Reset of a key
    leave the stored (count, bucket key) of every other key unchanged
    (Redis keys are "erl:" + key, so distinct keys never collide), and
    Get changes nothing. *)
Theorem store_ops_other_keys_unchanged (key k : string) (w : store.Window) :
  k <> key ->
  (forall m : store.MemoryStore,
     Views.mem_stored (snd (store.Increment key w m)) k = Views.mem_stored m k
     /\ Views.mem_stored (snd (store.Reset key m)) k = Views.mem_stored m k
     /\ snd (store.Get key w m) = m)
  /\ (forall db : store.SQLiteStore,
     Views.sql_stored (snd (store.Increment key w db)) k = Views.sql_stored db k
     /\ Views.sql_stored (snd (store.Reset key db)) k = Views.sql_stored db k
     /\ snd (store.Get key w db) = db)
  /\ (forall db : redis.RedisStore,
     Views.redis_stored (snd (store.Increment key w db)) k = Views.redis_stored db k
     /\ Views.redis_stored (snd (store.Reset key db)) k = Views.redis_stored db k
     /\ snd (store.Get key w db) = db).
Proof.
  intros Hk. split; [|split]; intros st.
  - destruct (StoreMore.mem_frame key k w st Hk) as [A B]. split; [exact A|]. split; [exact B|].
    cbn [store.Get store.MemoryStore_Store]. rewrite GetProofs.mem_get. reflexivity.
  - destruct (StoreMore.sql_frame key k w st Hk) as [A B]. split; [exact A|]. split; [exact B|].
    rewrite GetProofs.sql_get. reflexivity.
  - destruct (StoreMore.redis_frame key k w st Hk) as [A B]. split; [exact A|]. split; [exact B|].
    rewrite GetProofs.redis_get. reflexivity.
Qed.

Lemma store_ops_other_keys_unchanged_witness :
  ("b" <> "a")%string /\
  Views.mem_stored (snd (store.Increment "a" {| store.Duration := Minute;
      store.BucketKey := "B"; store.BucketStart := 0 |}
      (<["b" := {| store.count := 4; store.bucketKey := "B" |}]> (∅ : store.MemoryStore)))) "b"
  = Some (4, "B"%string).
Proof.
  split; [discriminate|].
  destruct (store_ops_other_keys_unchanged "a" "b"
              {| store.Duration := Minute; store.BucketKey := "B"; store.BucketStart := 0 |}
              ltac:(discriminate)) as [Hm _].
  destruct (Hm (<["b" := {| store.count := 4; store.bucketKey := "B" |}]> (∅ : store.MemoryStore)))
    as [A _].
  rewrite A. reflexivity.
Defined.

(** ** A TieredStore over an existing durable counter *)
(** A TieredStore created over an SQLite table that already counts n
    (1 <= n < max int64) in the current bucket returns n + 1 from its
    first Increment, but the Get that follows reads the fresh memory
    tier, which counts only that one increment, and returns 1. *)
Theorem TieredStore_restart_Get_undercounts (key : string) (w : store.Window)
    (db : store.SQLiteStore) (n : Z) :
  Views.sql_stored db key = Some (n, store.BucketKey w) -> 1 <= n < max_int64 ->
  fst (store.Increment key w (tiered.NewTieredStore db)) = (n + 1, None)
  /\ fst (store.Get key w (snd (store.Increment key w (tiered.NewTieredStore db)))) = (1, None).
Proof.
  intros Hs Hn. unfold Views.sql_stored in Hs.
  destruct (db !! key) as [r|] eqn:Er; [|discriminate].
  injection Hs as Hc Hb.
  cbn [store.Increment store.Get tiered.TieredStore_Store].
  unfold tiered.TieredStore_Increment. cbn [tiered.persistent tiered.memory tiered.NewTieredStore].
  rewrite Reliable.sql_Increment_table, Er, Hb, String.eqb_refl. cbn [negb].
  rewrite Hc, IncrementProofs.wrap64_id by (unfold min_int64, max_int64 in *; lia).
  unfold store.MemoryStore_Increment, store.NewMemoryStore. rewrite lookup_empty.
  cbn [fst snd]. split; [reflexivity|].
  unfold tiered.TieredStore_Get. cbn [tiered.memory].
  unfold store.MemoryStore_Get. rewrite lookup_insert_eq. cbn [store.bucketKey store.count].
  rewrite String.eqb_refl. reflexivity.
Qed.

Lemma TieredStore_restart_Get_undercounts_witness :
  let db := <["k" := {| store.row_count := 5; store.row_bucket_key := "B";
                        store.row_window_seconds := 60 |}]> (∅ : store.SQLiteStore) in
  let w := {| store.Duration := Minute; store.BucketKey := "B"; store.BucketStart := 0 |} in
  fst (store.Increment "k" w (tiered.NewTieredStore db)) = (6, None)
  /\ fst (store.Get "k" w (snd (store.Increment "k" w (tiered.NewTieredStore db)))) = (1, None).
Proof.
  intros db w.
  apply (TieredStore_restart_Get_undercounts "k" w db 5); [reflexivity|].
  unfold max_int64. lia.
Defined.

(** ** Counters at the int64 maximum *)
(** A memory or SQLite counter holding max int64 in the current bucket
    wraps around: the next Increment returns and stores min int64 with no
    error.  Redis refuses the increment instead: Increment returns 0 with
    the wrapped overflow error and leaves the hash unchanged. *)
Theorem Increment_at_max_int64 (key : string) (w : store.Window) :
  (forall m : store.MemoryStore,
     Views.mem_stored m key = Some (max_int64, store.BucketKey w) ->
     fst (store.Increment key w m) = (min_int64, None)
     /\ Views.mem_stored (snd (store.Increment key w m)) key = Some (min_int64, store.BucketKey w))
  /\ (forall db : store.SQLiteStore,
     Views.sql_stored db key = Some (max_int64, store.BucketKey w) ->
     fst (store.Increment key w db) = (min_int64, None)
     /\ Views.sql_stored (snd (store.Increment key w db)) key = Some (min_int64, store.BucketKey w))
  /\ (forall db : redis.RedisStore,
     Views.redis_stored db key = Some (max_int64, store.BucketKey w) ->
     store.Increment key w db =
     ((0, Some (Errorf "erl/store/redis: increment: %w"
                  (BackendError "ERR increment or decrement would overflow"))), db)).
Proof.
  split; [|split].
  - intros m Hs. pose proof (StoreMore.mem_increment_stores key w m) as Hst.
    cbn [store.Increment store.MemoryStore_Store] in *.
    unfold Views.mem_stored in Hs.
    assert (Hc : fst (fst (store.MemoryStore_Increment key w m)) = min_int64).
    { unfold store.MemoryStore_Increment. destruct (m !! key) as [b|]; [|discriminate].
      injection Hs as Hc Hb. rewrite Hb, String.eqb_refl. cbn. rewrite Hc. reflexivity. }
    assert (He : snd (fst (store.MemoryStore_Increment key w m)) = None).
    { unfold store.MemoryStore_Increment. reflexivity. }
    rewrite Hc in Hst. split; [|exact Hst].
    rewrite (surjective_pairing (fst _)), Hc, He. reflexivity.
  - intros db Hs. pose proof (GetProofs.sql_increment_stores key w db) as Hst.
    unfold Views.sql_stored in Hs.
    assert (Hc : fst (store.Increment key w db) = (min_int64, None)).
    { rewrite Reliable.sql_Increment_table. destruct (db !! key) as [r|]; [|discriminate].
      injection Hs as Hc Hb. rewrite Hb, String.eqb_refl. cbn. rewrite Hc. reflexivity. }
    rewrite Hc in Hst. split; [exact Hc|exact Hst].
  - intros db Hs. rewrite Reliable.redis_Increment_db.
    unfold Views.redis_stored in Hs. unfold redis.incrementScript.
    destruct (db !! redis.redisKey key) as [h|]; [|discriminate].
    injection Hs as Hc Hb. rewrite Hb, String.eqb_refl. cbn [negb].
    destruct (Reliable.hincrby_cases h) as [[_ ->]|[Hle _]]; [reflexivity|].
    rewrite Hc in Hle. lia.
Qed.

(** ** Redis expiry *)
(** A Redis counter's TTL is set to the window's whole seconds when
    Increment starts a bucket (missing key or another bucket key) and is
    left as it was by the increments within the bucket: the key expires a
    window after its bucket's first increment, not after its last. *)
Theorem Redis_ttl_set_at_bucket_start (key : string) (w : store.Window) (db : redis.RedisStore) :
  (forall h : redis.hash,
     db !! redis.redisKey key = Some h -> redis.h_bucket_key h = store.BucketKey w ->
     redis.h_count h < max_int64 ->
     option_map redis.h_ttl (snd (store.Increment key w db) !! redis.redisKey key)
     = Some (redis.h_ttl h))
  /\ ((forall h : redis.hash,
         db !! redis.redisKey key = Some h -> redis.h_bucket_key h <> store.BucketKey w) ->
      0 < store.window_seconds w ->
      option_map redis.h_ttl (snd (store.Increment key w db) !! redis.redisKey key)
      = Some (Some (store.window_seconds w))).
Proof.
  rewrite Reliable.redis_Increment_db. unfold redis.incrementScript. split.
  - intros h Eh Hb Hc. rewrite Eh, Hb, String.eqb_refl. cbn [negb].
    destruct (Reliable.hincrby_cases h) as [[Hgt _]|[_ [h' [-> [_ [_ Ht]]]]]]; [lia|].
    cbn [snd]. rewrite lookup_insert_eq. cbn [option_map]. rewrite Ht. reflexivity.
  - intros Hb Hw. destruct (db !! redis.redisKey key) as [h|] eqn:Eh.
    + destruct (String.eqb_spec (redis.h_bucket_key h) (store.BucketKey w)) as [E|E];
        [exfalso; exact (Hb h eq_refl E)|].
      cbn [negb]. destruct (Z.ltb_spec 0 (store.window_seconds w)); [|lia].
      cbn [snd]. rewrite lookup_insert_eq. reflexivity.
    + destruct (Z.ltb_spec 0 (store.window_seconds w)); [|lia].
      cbn [snd]. rewrite lookup_insert_eq. reflexivity.
Qed.

(* ===================================================================== *)
(** ** The other Limiter methods *)

Module LimiterMore.

Import store Views.

Section Generic.

Variable url_Parse : string -> option (string * string).
Context {S : Type} `{Store S}.

Lemma first_match_app (rs : list Resource) (r' : Resource) (rawURL : string) :
  first_match url_Parse (rs ++ [r']) rawURL =
  match first_match url_Parse rs rawURL with
  | Some r => Some r
  | None => if matchURL url_Parse rawURL (Pattern r') then Some r' else None
  end.
Proof.
  induction rs as [|r rs IH]; [reflexivity|].
  cbn [app first_match]. destruct (matchURL url_Parse rawURL (Pattern r)); [reflexivity|exact IH].
Qed.

Lemma getUsage_find (l : Limiter) (name : string) (now : Time) (st : S) :
  GetUsage l name now st =
  match find (fun r => String.eqb (Name r) name) (resources l) with
  | Some r => let '((c, err), st') := Get (Name r) (window_of r now) st in
              ((c, option_map UsageStoreError err), st')
  | None => ((0, Some (ResourceNotFound name)), st)
  end.
Proof.
  unfold GetUsage. induction (resources l) as [|r rs IH]; [reflexivity|].
  cbn [getUsage_loop find]. destruct (String.eqb (Name r) name); [reflexivity|exact IH].
Qed.

Variable stored : S -> string -> option (Z * string).
Hypothesis Hget : forall key w st, Get key w st = ((read_count (stored st key) w, None), st).

Lemma snapshot_loop_reads (rs : list Resource) (now : Time) (out : list ResourceStatus) (st : S) :
  snapshot_loop rs now out st =
  ((Some (out ++ map (fun r => {| RS_Resource := r;
                                  RS_Current := read_count (stored st (Name r)) (window_of r now) |}) rs),
    None), st).
Proof.
  revert out. induction rs as [|r rs IH]; intros out.
  - cbn. rewrite app_nil_r. reflexivity.
  - cbn [snapshot_loop]. rewrite Hget. rewrite IH, <- app_assoc. reflexivity.
Qed.

End Generic.

Lemma mem_reset_increment (key : string) (w : Window) (m : MemoryStore) :
  Increment key w (snd (Reset key m)) =
  ((1, None), snd (Increment key w (snd (Reset key m)))).
Proof. cbn. unfold MemoryStore_Increment. rewrite lookup_delete_eq. reflexivity. Qed.

Lemma sql_reset_increment (key : string) (w : Window) (db : SQLiteStore) :
  Increment key w (snd (Reset key db)) =
  ((1, None), snd (Increment key w (snd (Reset key db)))).
Proof.
  rewrite Reliable.sql_Reset_table. cbn [snd].
  rewrite Reliable.sql_Increment_table, lookup_delete_eq. reflexivity.
Qed.

Lemma redis_reset_increment (key : string) (w : Window) (db : redis.RedisStore) :
  Increment key w (snd (Reset key db)) =
  ((1, None), snd (Increment key w (snd (Reset key db)))).
Proof.
  rewrite Reliable.redis_Reset_db. cbn [snd].
  rewrite Reliable.redis_Increment_db. unfold redis.incrementScript.
  rewrite lookup_delete_eq. reflexivity.
Qed.

End LimiterMore.

(** ** Unmatched URLs *)
(** A URL no registered pattern matches is allowed: Check returns nil,
    leaves the store as it was and fires no callback, and RoundTrip hands
    the request to the base transport unchanged. *)
Theorem Check_unmatched_passes_through
    (url_Parse : string -> option (string * string)) {S : Type} `{store.Store S}
    {Resp : Type} (base : string -> option Resp * option error)
    (l : Limiter) (rawURL : string) (now : Time) (st : S) :
  first_match url_Parse (resources l) rawURL = None ->
  Check url_Parse l rawURL now st = (None, st, [])
  /\ RoundTrip url_Parse base l rawURL now st = (base rawURL, st, []).
Proof.
  intros Hm. assert (Hc : Check url_Parse l rawURL now st = (None, st, [])).
  { rewrite CheckProofs.check_first_match, Hm. reflexivity. }
  split; [exact Hc|]. unfold RoundTrip. rewrite Hc. reflexivity.
Qed.

Lemma Check_unmatched_passes_through_witness :
  let l := {| resources := [{| Name := "only-stripe"; Pattern := "api.stripe.com/*"; Limit := 1;
                               Resource_Window := PerMinute; Resource_Strategy := Block |}];
              onLimitReached := true |} in
  Check ExampleURL.parse l "https://api.github.com/repos" 0 (∅ : store.MemoryStore)
  = (None, ∅, []).
Proof.
  intros l.
  destruct (@Check_unmatched_passes_through ExampleURL.parse store.MemoryStore _ unit
              (fun _ => (Some tt, None)) l "https://api.github.com/repos" 0 ∅
              ltac:(vm_compute; reflexivity)) as [H _].
  exact H.
Defined.

(** ** Register *)
(** Registering a resource never changes what Check does for a URL an
    already registered resource matches; for any other URL, Check charges
    the new resource when its pattern matches and allows otherwise. *)
Theorem Register_keeps_earlier_matches
    (url_Parse : string -> option (string * string)) {S : Type} `{store.Store S}
    (l : Limiter) (r' : Resource) (rawURL : string) (now : Time) (st : S) :
  (first_match url_Parse (resources l) rawURL <> None ->
   Check url_Parse (Register l r') rawURL now st = Check url_Parse l rawURL now st)
  /\ (first_match url_Parse (resources l) rawURL = None ->
      Check url_Parse (Register l r') rawURL now st =
      if matchURL url_Parse rawURL (Pattern r') then check_matched l r' now st
      else (None, st, [])).
Proof.
  rewrite !CheckProofs.check_first_match. cbn [Register resources].
  rewrite LimiterMore.first_match_app.
  destruct (first_match url_Parse (resources l) rawURL) as [r|]; split; intros Hm;
    try congruence.
  - reflexivity.
  - destruct (matchURL url_Parse rawURL (Pattern r')); reflexivity.
Qed.

(** ** GetUsage *)
(** GetUsage of a name no registered resource has returns 0 with the
    resource-not-found error and leaves the store untouched. *)
Theorem GetUsage_unknown_name
    {S : Type} `{store.Store S} (l : Limiter) (name : string) (now : Time) (st : S) :
  Forall (fun r => Name r <> name) (resources l) ->
  GetUsage l name now st = ((0, Some (ResourceNotFound name)), st).
Proof.
  intros Hall. rewrite LimiterMore.getUsage_find.
  destruct (find (fun r => String.eqb (Name r) name) (resources l)) as [r|] eqn:Ef;
    [|reflexivity].
  apply find_some in Ef as [Hin Hn]. apply String.eqb_eq in Hn.
  rewrite List.Forall_forall in Hall. exfalso. exact (Hall r Hin Hn).
Qed.

Lemma GetUsage_unknown_name_witness :
  GetUsage {| resources := [{| Name := "a"; Pattern := "*"; Limit := 1;
                               Resource_Window := PerMinute; Resource_Strategy := Block |}];
              onLimitReached := false |} "b" 0 (∅ : store.MemoryStore)
  = ((0, Some (ResourceNotFound "b")), ∅).
Proof.
  apply GetUsage_unknown_name. constructor; [cbn; discriminate|constructor].
Defined.

(** After a Check that charged resource r (the first match of the URL,
    and the first registered resource with r's name), GetUsage of r's
    name at the same instant returns the count that Check's Increment
    returned, on the memory and SQLite stores. *)
Theorem GetUsage_after_Check
    (url_Parse : string -> option (string * string)) (l : Limiter) (rawURL : string)
    (now : Time) (r : Resource) :
  first_match url_Parse (resources l) rawURL = Some r ->
  find (fun r0 => String.eqb (Name r0) (Name r)) (resources l) = Some r ->
  (forall m : store.MemoryStore,
     fst (GetUsage l (Name r) now (snd (fst (Check url_Parse l rawURL now m))))
     = (fst (fst (store.Increment (Name r) (window_of r now) m)), None))
  /\ (forall db : store.SQLiteStore,
     fst (GetUsage l (Name r) now (snd (fst (Check url_Parse l rawURL now db))))
     = (fst (fst (store.Increment (Name r) (window_of r now) db)), None)).
Proof.
  intros Hm Hf. split; intros st.
  - rewrite (CheckProofs.check_ok url_Parse l rawURL now st
               (snd (store.Increment (Name r) (window_of r now) st)) r
               (fst (fst (store.Increment (Name r) (window_of r now) st))) Hm)
      by (cbn; unfold store.MemoryStore_Increment; reflexivity).
    rewrite LimiterMore.getUsage_find, Hf. cbn [fst snd store.Get store.Increment store.MemoryStore_Store].
    rewrite GetProofs.mem_get, StoreMore.mem_increment_stores, StoreMore.read_count_same.
    reflexivity.
  - rewrite (CheckProofs.check_ok url_Parse l rawURL now st
               (snd (store.Increment (Name r) (window_of r now) st)) r
               (fst (fst (store.Increment (Name r) (window_of r now) st))) Hm)
      by (rewrite Reliable.sql_Increment_table; destruct (st !! Name r); reflexivity).
    rewrite LimiterMore.getUsage_find, Hf. cbn [fst snd].
    rewrite GetProofs.sql_get, GetProofs.sql_increment_stores, StoreMore.read_count_same.
    reflexivity.
Qed.

Lemma GetUsage_after_Check_witness :
  let r := {| Name := "usage-api"; Pattern := "api.usage.com/*"; Limit := 100;
              Resource_Window := PerMinute; Resource_Strategy := Block |} in
  let l := {| resources := [r]; onLimitReached := false |} in
  let m := <["usage-api" := {| store.count := 4; store.bucketKey := "2024-01-15T14:30" |}]>
             (∅ : store.MemoryStore) in
  fst (GetUsage l "usage-api" (1705329000 * Second)
         (snd (fst (Check ExampleURL.parse l "https://api.usage.com/test" (1705329000 * Second) m))))
  = (5, None).
Proof.
  intros r l m.
  destruct (GetUsage_after_Check ExampleURL.parse l "https://api.usage.com/test"
              (1705329000 * Second) r ltac:(vm_compute; reflexivity) ltac:(vm_compute; reflexivity))
    as [Hm _].
  etransitivity; [exact (Hm m)|vm_compute; reflexivity].
Defined.

(** ** ResetUsage *)
(** After ResetUsage of a resource's name, the next Check charging that
    resource sees count 1: with a limit of at least 1 it is allowed and
    fires no callback, on the memory, SQLite and Redis stores. *)
Theorem ResetUsage_then_Check_allowed
    (url_Parse : string -> option (string * string)) (l : Limiter) (rawURL : string)
    (now : Time) (r : Resource) :
  first_match url_Parse (resources l) rawURL = Some r -> 1 <= Limit r ->
  (forall m : store.MemoryStore,
     let X := Check url_Parse l rawURL now (snd (ResetUsage l (Name r) m)) in
     fst (fst X) = None /\ snd X = [])
  /\ (forall db : store.SQLiteStore,
     let X := Check url_Parse l rawURL now (snd (ResetUsage l (Name r) db)) in
     fst (fst X) = None /\ snd X = [])
  /\ (forall db : redis.RedisStore,
     let X := Check url_Parse l rawURL now (snd (ResetUsage l (Name r) db)) in
     fst (fst X) = None /\ snd X = []).
Proof.
  intros Hm Hl. unfold ResetUsage.
  split; [|split]; intros st; cbv zeta.
  - rewrite (CheckProofs.check_ok url_Parse l rawURL now _ _ r 1 Hm
               (LimiterMore.mem_reset_increment (Name r) (window_of r now) st)).
    rewrite CheckProofs.apply_strategy_under by lia. split; reflexivity.
  - rewrite (CheckProofs.check_ok url_Parse l rawURL now _ _ r 1 Hm
               (LimiterMore.sql_reset_increment (Name r) (window_of r now) st)).
    rewrite CheckProofs.apply_strategy_under by lia. split; reflexivity.
  - rewrite (CheckProofs.check_ok url_Parse l rawURL now _ _ r 1 Hm
               (LimiterMore.redis_reset_increment (Name r) (window_of r now) st)).
    rewrite CheckProofs.apply_strategy_under by lia. split; reflexivity.
Qed.

Lemma ResetUsage_then_Check_allowed_witness :
  let r := {| Name := "reset-api"; Pattern := "api.reset.com/*"; Limit := 3;
              Resource_Window := PerMinute; Resource_Strategy := Block |} in
  let l := {| resources := [r]; onLimitReached := true |} in
  let m := <["reset-api" := {| store.count := 4; store.bucketKey := "2024-01-15T14:30" |}]>
             (∅ : store.MemoryStore) in
  fst (fst (Check ExampleURL.parse l "https://api.reset.com/test" (1705329000 * Second)
              (snd (ResetUsage l "reset-api" m)))) = None.
Proof.
  intros r l m.
  destruct (ResetUsage_then_Check_allowed ExampleURL.parse l "https://api.reset.com/test"
              (1705329000 * Second) r ltac:(vm_compute; reflexivity) ltac:(vm_compute; discriminate))
    as [Hm _].
  exact (proj1 (Hm m)).
Defined.

(* ===================================================================== *)
(** ** Snapshot over any driver or client *)

Module SnapshotConn.

Import store Views.

Lemma sql_snapshot_loop (rs : list Resource) (now : Time) (out : list ResourceStatus)
    (c : SQLiteConn) :
  let X := snapshot_loop rs now out c in
  conn_table (snd X) = conn_table c
  /\ (fst X = (Some (out ++ snapshot_statuses (sql_stored (conn_table c)) now rs), None)
      \/ exists msg, fst X = (None, Some (Errorf "erl: snapshot %s: %w" (BackendError msg))))
  /\ (Forall (fun o => o = None) (firstn (length rs) (conn_driver c)) ->
      fst X = (Some (out ++ snapshot_statuses (sql_stored (conn_table c)) now rs), None)).
Proof.
  revert out c. induction rs as [|r rs IH]; intros out c; cbv zeta.
  - cbn. rewrite app_nil_r. auto.
  - cbn [snapshot_loop]. rewrite ConnProofs.sql_get_conn.
    destruct c as [db d]. cbn [conn_driver conn_table].
    destruct d as [|o d]; [|destruct o as [msg|]]; cbn [driver_call option_map].
    + destruct (IH (out ++ [{| RS_Resource := r;
                              RS_Current := read_count (sql_stored db (Name r)) (window_of r now) |}])
                   {| conn_table := db; conn_driver := [] |}) as (T & A & B).
      cbn [conn_table conn_driver] in T, A, B. rewrite <- app_assoc in A, B.
      split; [exact T|]. split; [exact A|]. intros _. apply B. rewrite firstn_nil. constructor.
    + cbn. split; [reflexivity|]. split; [right; exists msg; reflexivity|].
      intros Hf. inversion Hf. discriminate.
    + destruct (IH (out ++ [{| RS_Resource := r;
                              RS_Current := read_count (sql_stored db (Name r)) (window_of r now) |}])
                   {| conn_table := db; conn_driver := d |}) as (T & A & B).
      cbn [conn_table conn_driver] in T, A, B. rewrite <- app_assoc in A, B.
      split; [exact T|]. split; [exact A|]. intros Hf. apply B.
      cbn [length firstn] in Hf. inversion Hf. assumption.
Qed.

Lemma redis_snapshot_loop (rs : list Resource) (now : Time) (out : list ResourceStatus)
    (c : redis.RedisConn) :
  let X := snapshot_loop rs now out c in
  redis.conn_db (snd X) = redis.conn_db c
  /\ (fst X = (Some (out ++ snapshot_statuses (redis_stored (redis.conn_db c)) now rs), None)
      \/ exists msg, fst X = (None, Some (Errorf "erl: snapshot %s: %w"
                                          (Errorf "erl/store/redis: get: %w" (BackendError msg)))))
  /\ (Forall (fun o => o = redis.Delivered) (firstn (length rs) (redis.conn_client c)) ->
      fst X = (Some (out ++ snapshot_statuses (redis_stored (redis.conn_db c)) now rs), None)).
Proof.
  revert out c. induction rs as [|r rs IH]; intros out c; cbv zeta.
  - cbn. rewrite app_nil_r. auto.
  - cbn [snapshot_loop]. rewrite ConnProofs.redis_get_conn.
    destruct c as [db cl]. cbn [redis.conn_client redis.conn_db].
    destruct cl as [|o cl]; [|destruct o as [|msg|msg]]; cbn [redis.client_call].
    + destruct (IH (out ++ [{| RS_Resource := r;
                              RS_Current := read_count (redis_stored db (Name r)) (window_of r now) |}])
                   {| redis.conn_db := db; redis.conn_client := [] |}) as (T & A & B).
      cbn [redis.conn_db redis.conn_client] in T, A, B. rewrite <- app_assoc in A, B.
      split; [exact T|]. split; [exact A|]. intros _. apply B. rewrite firstn_nil. constructor.
    + destruct (IH (out ++ [{| RS_Resource := r;
                              RS_Current := read_count (redis_stored db (Name r)) (window_of r now) |}])
                   {| redis.conn_db := db; redis.conn_client := cl |}) as (T & A & B).
      cbn [redis.conn_db redis.conn_client] in T, A, B. rewrite <- app_assoc in A, B.
      split; [exact T|]. split; [exact A|]. intros Hf. apply B.
      cbn [length firstn] in Hf. inversion Hf. assumption.
    + cbn. split; [reflexivity|]. split; [right; exists msg; reflexivity|].
      intros Hf. inversion Hf. discriminate.
    + cbn. split; [reflexivity|]. split; [right; exists msg; reflexivity|].
      intros Hf. inversion Hf. discriminate.
Qed.

End SnapshotConn.


(** ** RoundTrip *)
(** When the charged resource is over its limit under Block or
    BlockWithQueue, RoundTrip returns no response and the limit-exceeded
    error (which errors.Is recognises as ErrLimitExceeded) without calling
    the base transport; at or under the limit it returns the base
    transport's result. *)
Theorem RoundTrip_blocks_over_limit
    (url_Parse : string -> option (string * string)) {S : Type} `{store.Store S}
    {Resp : Type} (base : string -> option Resp * option error)
    (l : Limiter) (rawURL : string) (now : Time) (st st' : S) (r : Resource) (current : Z) :
  first_match url_Parse (resources l) rawURL = Some r ->
  store.Increment (Name r) (window_of r now) st = ((current, None), st') ->
  (current > Limit r ->
   (Resource_Strategy r = Block \/ Resource_Strategy r = BlockWithQueue) ->
   fst (fst (RoundTrip url_Parse base l rawURL now st))
   = (None, Some (LimitExceededError r current
                    (Add (Window_BucketStart (Resource_Window r) now)
                         (Window_Duration (Resource_Window r)))))
   /\ snd (fst (RoundTrip url_Parse base l rawURL now st)) = st'
   /\ errors_Is (LimitExceededError r current
                   (Add (Window_BucketStart (Resource_Window r) now)
                        (Window_Duration (Resource_Window r)))) ErrLimitExceeded = true)
  /\ (current <= Limit r -> RoundTrip url_Parse base l rawURL now st = (base rawURL, st', [])).
Proof.
  intros Hm Hi. unfold RoundTrip.
  rewrite (CheckProofs.check_ok url_Parse l rawURL now st st' r current Hm Hi).
  split.
  - intros Hc Hs.
    destruct (CheckProofs.apply_strategy_over l r (window_of r now) current Hc) as [_ Res].
    destruct (apply_strategy l r (window_of r now) current) as [res evs].
    cbn [fst snd] in *. rewrite Res.
    destruct Hs as [Hs|Hs]; rewrite Hs; cbn; repeat split.
  - intros Hc. rewrite (CheckProofs.apply_strategy_under l r (window_of r now) current Hc).
    reflexivity.
Qed.

Lemma RoundTrip_blocks_over_limit_witness :
  let r := {| Name := "limited-server"; Pattern := "*"; Limit := 2;
              Resource_Window := PerMinute; Resource_Strategy := Block |} in
  let l := {| resources := [r]; onLimitReached := false |} in
  let now := 1705329000 * Second in
  let m := <["limited-server" := {| store.count := 2; store.bucketKey := "2024-01-15T14:30" |}]>
             (∅ : store.MemoryStore) in
  fst (fst (RoundTrip ExampleURL.parse (fun _ => (Some tt, None)) l
              "https://127.0.0.1/test" now m))
  = (None, Some (LimitExceededError r 3 (1705329060 * Second))).
Proof.
  intros r l now m.
  destruct (RoundTrip_blocks_over_limit ExampleURL.parse (fun _ => (Some tt, None)) l
              "https://127.0.0.1/test" now m
              (<["limited-server" := {| store.count := 3; store.bucketKey := "2024-01-15T14:30" |}]>
                 (∅ : store.MemoryStore)) r 3
              ltac:(vm_compute; reflexivity) ltac:(vm_compute; reflexivity)) as [Ho _].
  rewrite (proj1 (Ho ltac:(vm_compute; reflexivity) (or_introl eq_refl))).
  vm_compute. reflexivity.
Defined.

(** ** Store errors *)
(** When the store's Increment fails, Check returns the error wrapped as
    "erl: store error: %w", with the store state the failed call left and
    no callback, and errors.Is finds ErrLimitExceeded in it exactly when
    it is in the store's error.  The SQLite and Redis stores' Increment
    errors never contain it (they wrap a driver or server error), and a
    failed Redis Increment returns count 0. *)
Theorem Check_store_error_propagates
    (url_Parse : string -> option (string * string)) {S : Type} `{store.Store S}
    (l : Limiter) (rawURL : string) (now : Time) (st st' : S) (r : Resource) (c : Z) (e : error) :
  first_match url_Parse (resources l) rawURL = Some r ->
  store.Increment (Name r) (window_of r now) st = ((c, Some e), st') ->
  Check url_Parse l rawURL now st = (Some (Errorf "erl: store error: %w" e), st', [])
  /\ errors_Is (Errorf "erl: store error: %w" e) ErrLimitExceeded = errors_Is e ErrLimitExceeded
  /\ (forall (key : string) (w : store.Window) (cn cn' : store.SQLiteConn) (n : Z) (e' : error),
        store.Increment key w cn = ((n, Some e'), cn') ->
        errors_Is e' ErrLimitExceeded = false)
  /\ (forall (key : string) (w : store.Window) (cn cn' : redis.RedisConn) (n : Z) (e' : error),
        store.Increment key w cn = ((n, Some e'), cn') ->
        errors_Is e' ErrLimitExceeded = false /\ n = 0).
Proof.
  intros Hm Hi. split; [|split; [|split]].
  - rewrite CheckProofs.check_first_match, Hm. unfold check_matched. rewrite Hi. reflexivity.
  - reflexivity.
  - intros key w cn cn' n e' He.
    destruct (ConnProofs.sql_increment_conn_err key w cn cn' n e' He) as [[msg ->] _].
    reflexivity.
  - intros key w cn cn' n e' He.
    destruct (ConnProofs.redis_increment_conn_err key w cn cn' n e' He) as [-> [msg ->]].
    split; reflexivity.
Qed.

Lemma Check_store_error_propagates_witness :
  let r := {| Name := "k"; Pattern := "*"; Limit := 10;
              Resource_Window := PerMinute; Resource_Strategy := Block |} in
  let l := {| resources := [r]; onLimitReached := true |} in
  let now := 1705329000 * Second in
  let db := <[redis.redisKey "k" := {| redis.h_count := max_int64;
                 redis.h_bucket_key := "2024-01-15T14:30"; redis.h_ttl := Some 60; redis.h_count_int64 := eq_refl |}]>
              (∅ : redis.RedisStore) in
  errors_Is (Errorf "erl: store error: %w"
               (Errorf "erl/store/redis: increment: %w"
                  (BackendError "ERR increment or decrement would overflow"))) ErrLimitExceeded
  = false
  /\ Check ExampleURL.parse l "https://api.test.com/x" now db =
     (Some (Errorf "erl: store error: %w"
              (Errorf "erl/store/redis: increment: %w"
                 (BackendError "ERR increment or decrement would overflow"))), db, []).
Proof.
  intros r l now db.
  destruct (Check_store_error_propagates ExampleURL.parse l "https://api.test.com/x" now db db r 0
              (Errorf "erl/store/redis: increment: %w"
                 (BackendError "ERR increment or decrement would overflow"))
              ltac:(vm_compute; reflexivity) ltac:(vm_compute; reflexivity)) as (Hc & Hi & _).
  split; [rewrite Hi; reflexivity|exact Hc].
Defined.
